(** * GuitarHelper: the string-and-note trainer ([fretboard_trainer.py])

    A shallow embedding of the trainer's note helpers, fretboard model,
    single-chunk pitch detector and main-loop decision step, followed by
    the properties stated about them.

    Number model.  Python integers are [Z].  Python and numpy floats are
    idealised: the pitch detector and the clock work over the rationals
    [Q] (every operation it performs is a field operation or a
    comparison, so the model runs), while [freq_to_midi] and the scan of
    [nearest_fret_from_freq] work over the reals [R], because of
    [math.log2].  Rounding, infinities and NaN are outside that model.

    [freq_to_midi] is modelled a second time on IEEE 754 binary64
    ([Binary64.freq_to_midi]), with its guard, its division and the
    domain check of [math.log2] as the interpreter runs them: this is
    where the function can raise. *)

From Stdlib Require Import ZArith List FinFun String Bool DecimalString.
From Stdlib Require Import QArith Qabs Qround Reals Qreals Lia Lra.
From Stdlib Require DecimalPos DecimalZ.
From Stdlib Require Import SpecFloat.
Import ListNotations.

Open Scope Z_scope.

(** ** Raising computations

    A Python call either returns a value or raises.  Functions of the
    source that return [None] for "no result" return an [option] inside
    [py]; [Raise] is kept for real exceptions ([IndexError],
    [ValueError]). *)

Inductive py (A : Type) : Type :=
| Ret (a : A)
| Raise (exn : string).

Arguments Ret {A} a.
Arguments Raise {A} exn.

Definition bind {A B : Type} (m : py A) (k : A -> py B) : py B :=
  match m with
  | Ret a => k a
  | Raise e => Raise e
  end.

Notation "x <- m ;; k" := (bind m (fun x => k))
  (at level 61, m at next level, right associativity).
Notation "' pat <- m ;; k" := (bind m (fun x => match x with pat => k end))
  (at level 61, pat pattern, m at next level, right associativity).

(** [range(lo, hi)] *)
Definition range (lo hi : Z) : list Z :=
  map (fun i => lo + Z.of_nat i) (seq 0 (Z.to_nat (hi - lo))).

(** ** CONFIG *)

Definition SAMPLE_RATE : Z := 44100.
Definition BUFFER_SIZE : Z := 1024.

Definition AMPLITUDE_THRESHOLD : Q := 2 # 100.
Definition MIN_F0 : Q := 70 # 1.
Definition MAX_F0 : Q := 1000 # 1.
Definition EVENT_DEBOUNCE_SECONDS : Q := 4 # 10.

Definition NOTE_NAMES : list string :=
  ["C"; "C#"; "D"; "D#"; "E"; "F"; "F#"; "G"; "G#"; "A"; "A#"; "B"]%string.

(** The tuning dictionary, as the association list of its items in
    iteration (insertion) order. *)
Definition STRING_TUNING_MIDI : list (Z * Z) :=
  [(6, 40); (5, 45); (4, 50); (3, 55); (2, 59); (1, 64)].

Definition MAX_FRET : Z := 12.

(** [d[k]] on an association list. *)
Fixpoint lookup (k : Z) (d : list (Z * Z)) : option Z :=
  match d with
  | [] => None
  | (k', v) :: d' => if k' =? k then Some v else lookup k d'
  end.

Definition keys (d : list (Z * Z)) : list Z := map fst d.

(** ** NOTE HELPERS *)

(** [str(z)] for an integer, as the f-string prints it. *)
Definition str_of_int (z : Z) : string := NilZero.string_of_int (Z.to_int z).

(** [NOTE_NAMES[i]] for an index already reduced modulo 12: the index is
    in [0, 12) and the table has twelve entries, so the default of [nth]
    is never produced (lemma [note_index_in_range]). *)
Definition note_at (i : Z) : string := nth (Z.to_nat i) NOTE_NAMES EmptyString.

Definition midi_to_note_name (midi_num : Z) : string :=
  let name := note_at (midi_num mod 12) in
  let octave := midi_num / 12 - 1 in
  (name ++ str_of_int octave)%string.

Definition log2 (x : R) : R := (ln x / ln 2)%R.

(** [freq_to_midi] in exact arithmetic: [frequency] is [None] or a
    number. *)
Definition freq_to_midi (frequency : option R) : option R :=
  match frequency with
  | None => None
  | Some f =>
      if Rle_dec f 0 then None
      else Some (69 + 12 * log2 (f / 440))%R
  end.

(** [freq_to_midi] on Python's floats, IEEE 754 binary64 with rounding to
    nearest even: [spec_float] with a mantissa of 53 bits and exponents
    below 1024. *)
Module Binary64.

Definition prec : Z := 53.
Definition emax : Z := 1024.

(** [float(z)] for an integer, as mixed arithmetic and comparisons
    convert it; exact for the constants of the source. *)
Definition float_of_int (z : Z) : spec_float := binary_normalize prec emax z 0 false.

Section Libm.

(** The C library's [log2] on a positive finite double. *)
Variable libm_log2 : spec_float -> spec_float.

(** [math.log2(x)]: NaN and [+inf] are passed through, zero and negative
    arguments raise [ValueError] (math domain error), the rest is the C
    library's. *)
Definition math_log2 (x : spec_float) : py spec_float :=
  match x with
  | S754_nan => Ret S754_nan
  | S754_infinity false => Ret (S754_infinity false)
  | S754_finite false _ _ => Ret (libm_log2 x)
  | S754_zero _ | S754_infinity true | S754_finite true _ _ => Raise "ValueError"
  end.

Definition freq_to_midi (frequency : option spec_float) : py (option spec_float) :=
  match frequency with
  | None => Ret None
  | Some f =>
      if SFleb f (float_of_int 0) then Ret None
      else
        l <- math_log2 (SFdiv prec emax f (float_of_int 440)) ;;
        Ret (Some (SFadd prec emax (float_of_int 69)
                         (SFmul prec emax (float_of_int 12) l)))
  end.

End Libm.

End Binary64.

Definition pitch_class_name (midi_num : Z) : string := note_at (midi_num mod 12).

(** ** FRETBOARD MODEL *)

(** An entry [(s, fret, midi, name)]. *)
Definition FretPosition : Type := (Z * Z * Z * string)%type.

Definition fp_string (e : FretPosition) : Z := let '(s, _, _, _) := e in s.
Definition fp_fret (e : FretPosition) : Z := let '(_, fret, _, _) := e in fret.
Definition fp_midi (e : FretPosition) : Z := let '(_, _, midi, _) := e in midi.
Definition fp_name (e : FretPosition) : string := let '(_, _, _, name) := e in name.

(** The inner loop over the frets of one string, appending to the list. *)
Definition append_string (max_fret : Z) (acc : list FretPosition) (item : Z * Z)
  : list FretPosition :=
  let '(s, open_midi) := item in
  fold_left
    (fun acc fret =>
       let midi := open_midi + fret in
       let name := midi_to_note_name midi in
       acc ++ [(s, fret, midi, name)])
    (range 0 (max_fret + 1)) acc.

(** The two nested loops that fill [FRETBOARD], for any tuning table. *)
Definition build_fretboard (tuning : list (Z * Z)) (max_fret : Z) : list FretPosition :=
  fold_left (append_string max_fret) tuning [].

Definition FRETBOARD : list FretPosition :=
  build_fretboard STRING_TUNING_MIDI MAX_FRET.

(** [random.choice(seq)] with the generator's draw [r] injected: it picks
    index [r mod len(seq)] and raises on an empty sequence. *)
Definition choice {A : Type} (r : nat) (seq : list A) : py A :=
  match nth_error seq (r mod List.length seq) with
  | Some x => Ret x
  | None => Raise "IndexError"
  end.

(** The target [(string, midi, pc_name, fret, name)]. *)
Definition Target : Type := (Z * Z * string * Z * string)%type.

Definition random_target_string_and_note (r1 r2 : nat) : py Target :=
  string <- choice r1 (keys STRING_TUNING_MIDI) ;;
  let candidates := filter (fun entry => fp_string entry =? string) FRETBOARD in
  '(_, fret, midi, name) <- choice r2 candidates ;;
  let pc_name := pitch_class_name midi in
  Ret (string, midi, pc_name, fret, name).

(** One pass of the body of the scan loop: [st] is [(best, best_dist)]. *)
Definition scan_step (midi_est : R) (st : option FretPosition * R) (e : FretPosition)
  : option FretPosition * R :=
  let '(s, fret, midi, name) := e in
  let dist := Rabs (midi_est - IZR midi) in
  if Rlt_dec dist (snd st) then (Some (s, fret, midi, name), dist) else st.

(** The scan of lines 78-85 over any fretboard list. *)
Definition nearest_scan (fretboard : list FretPosition) (midi_est : R)
  : option FretPosition :=
  fst (fold_left (scan_step midi_est) fretboard (None, 999%R)).

Definition nearest_fret_from_freq (freq : option R) : option FretPosition :=
  match freq_to_midi freq with
  | None => None
  | Some midi_est => nearest_scan FRETBOARD midi_est
  end.

(** ** PITCH FROM ONE CHUNK *)

(** numpy primitives on one-dimensional arrays of rationals. *)

Definition np_sum (a : list Q) : Q := fold_right Qplus 0%Q a.

Definition np_mean (a : list Q) : Q :=
  (np_sum a / inject_Z (Z.of_nat (List.length a)))%Q.

Definition Qmax2 (m y : Q) : Q := if Qlt_le_dec m y then y else m.

(** [np.max]: raises on an empty array. *)
Definition np_max (a : list Q) : py Q :=
  match a with
  | [] => Raise "ValueError"
  | x :: t => Ret (fold_left Qmax2 t x)
  end.

(** [np.argmax]: index of the first occurrence of the maximum; [i] is the
    index of the head of [a], [(best_i, best)] the running maximum. *)
Fixpoint argmax_from (a : list Q) (i best_i : nat) (best : Q) : nat :=
  match a with
  | [] => best_i
  | y :: t =>
      if Qlt_le_dec best y then argmax_from t (S i) i y
      else argmax_from t (S i) best_i best
  end.

Definition np_argmax (a : list Q) : py nat :=
  match a with
  | [] => Raise "ValueError"
  | x :: t => Ret (argmax_from t 1 0 x)
  end.

(** [a[i]] read as zero outside the array (the zero padding of a full
    correlation). *)
Definition padded (a : list Q) (i : Z) : Q :=
  if i <? 0 then 0%Q else nth (Z.to_nat i) a 0%Q.

(** [np.correlate(a, v, mode="full")]: entry [j] is the sum over [n] of
    [a[n + k] * v[n]] at lag [k = j - (len(v) - 1)]; there are
    [len(a) + len(v) - 1] entries. *)
Definition np_correlate_full (a v : list Q) : list Q :=
  let N := Z.of_nat (List.length a) in
  let M := Z.of_nat (List.length v) in
  map (fun j =>
         let k := j - (M - 1) in
         np_sum (map (fun n => (padded a (n + k) * padded v n)%Q) (range 0 M)))
      (range 0 (N + M - 1)).

(** A slice bound as Python normalises it: negative bounds count from
    the end, and every bound is clipped to [0, len]. *)
Definition slice_index (len i : Z) : nat :=
  Z.to_nat (if i <? 0 then Z.max 0 (len + i) else Z.min i len).

(** [a[lo:hi]] *)
Definition slice {A : Type} (a : list A) (lo hi : Z) : list A :=
  let len := Z.of_nat (List.length a) in
  firstn (slice_index len hi - slice_index len lo) (skipn (slice_index len lo) a).

(** [a[lo:]] *)
Definition slice_from {A : Type} (a : list A) (lo : Z) : list A :=
  skipn (slice_index (Z.of_nat (List.length a)) lo) a.

(** [a[:hi] = 0] *)
Definition zero_prefix (a : list Q) (hi : Z) : list Q :=
  let k := slice_index (Z.of_nat (List.length a)) hi in
  map (fun _ => 0%Q) (firstn k a) ++ skipn k a.

(** [int(x)] on a float: truncation toward zero. *)
Definition int_trunc (x : Q) : Z := Z.quot (Qnum x) (Zpos (Qden x)).

Definition min_lag : Z := int_trunc (inject_Z SAMPLE_RATE / MAX_F0)%Q.

(** [max_lag] before the clamp of line 108. *)
Definition max_lag_unclamped : Z := int_trunc (inject_Z SAMPLE_RATE / MIN_F0)%Q.

(** Lines 105-111: the lag window [(min_lag, max_lag)] for a correlation
    array of length [len_corr], or [None] where the source returns
    [None]. *)
Definition lag_window (len_corr : Z) : option (Z * Z) :=
  let max_lag := max_lag_unclamped in
  let max_lag := if max_lag >=? len_corr then len_corr - 1 else max_lag in
  if min_lag >=? max_lag then None else Some (min_lag, max_lag).

(** Lines 105-116: the winning lag in the window. *)
Definition best_lag (corr : list Q) : py (option Z) :=
  match lag_window (Z.of_nat (List.length corr)) with
  | None => Ret None
  | Some (min_lag, max_lag) =>
      let corr := zero_prefix corr min_lag in
      i <- np_argmax (slice corr min_lag max_lag) ;;
      let lag := Z.of_nat i + min_lag in
      if lag <=? 0 then Ret None else Ret (Some lag)
  end.

(** Line 95: [audio - np.mean(audio)]. *)
Definition dc_removed (audio : list Q) : list Q :=
  let mean := np_mean audio in
  map (fun x => x - mean)%Q audio.

(** Line 97: the peak absolute amplitude after DC removal. *)
Definition peak_amplitude (audio : list Q) : py Q :=
  np_max (map Qabs (dc_removed audio)).

(** Lines 94-103: DC removal, silence gate, normalisation and the
    non-negative-lag half of the autocorrelation; [None] is the silence
    gate's early return. *)
Definition autocorrelation (audio : list Q) : py (option (list Q)) :=
  let audio := dc_removed audio in
  peak <- np_max (map Qabs audio) ;;
  if Qlt_le_dec peak AMPLITUDE_THRESHOLD then Ret None
  else
    let audio := map (fun x => x / peak)%Q audio in
    let corr := np_correlate_full audio audio in
    Ret (Some (slice_from corr (Z.of_nat (List.length corr) / 2))).

(** The array type has no [None] inhabitant, so of the first test only
    [len(audio) == 0] remains. *)
Definition detect_pitch_from_chunk (audio : list Q) : py (option Q) :=
  if Z.of_nat (List.length audio) =? 0 then Ret None
  else
    corr <- autocorrelation audio ;;
    match corr with
    | None => Ret None
    | Some corr =>
        lag <- best_lag corr ;;
        match lag with
        | None => Ret None
        | Some lag =>
            let freq := (inject_Z SAMPLE_RATE / inject_Z lag)%Q in
            if Qlt_le_dec freq MIN_F0 then Ret None
            else if Qlt_le_dec MAX_F0 freq then Ret None
            else Ret (Some freq)
        end
    end.

(** ** MAIN LOOP *)

(** The debounce label [(det_string, det_fret, det_pc)]. *)
Definition Label : Type := (Z * Z * string)%type.

(** Tuple equality [label == last_event_label] on two labels. *)
Definition label_eqb (a b : Label) : bool :=
  let '(s1, f1, pc1) := a in
  let '(s2, f2, pc2) := b in
  (s1 =? s2) && (f1 =? f2) && String.eqb pc1 pc2.

(** The loop's local variables. *)
Record LoopState : Type := mkLoopState {
  target : Target;
  last_event_label : option Label;
  last_event_time : Q
}.

(** The test of line 167; [None] never equals a label. *)
Definition debounced (st : LoopState) (label : Label) (now : Q) : bool :=
  match last_event_label st with
  | None => false
  | Some last =>
      label_eqb label last
      && (if Qlt_le_dec (now - last_event_time st) EVENT_DEBOUNCE_SECONDS
          then true else false)
  end.

(** Lines 167-170: [None] is the [continue] of a suppressed label;
    otherwise the label is accepted and recorded. *)
Definition debounce_step (st : LoopState) (label : Label) (now : Q)
  : option LoopState :=
  if debounced st label now then None
  else Some (mkLoopState (target st) (Some label) now).

(** The three verdict lines. *)
Inductive Verdict : Type :=
| Correct
| RightNoteWrongString
| DifferentNote.

Definition target_string (t : Target) : Z := let '(s, _, _, _, _) := t in s.
Definition target_midi (t : Target) : Z := let '(_, midi, _, _, _) := t in midi.
Definition target_pc (t : Target) : string := let '(_, _, pc, _, _) := t in pc.
Definition target_fret (t : Target) : Z := let '(_, _, _, fret, _) := t in fret.
Definition target_full (t : Target) : string := let '(_, _, _, _, name) := t in name.

(** Lines 174-183 for an accepted label, followed on [break] by the draw
    of the next target at the head of the outer loop (line 142), with
    the generator's two draws [r1], [r2] injected.  The boolean tells
    whether the inner loop was left. *)
Definition decide_step (st : LoopState) (label : Label) (r1 r2 : nat)
  : py (LoopState * Verdict * bool) :=
  let '(det_string, _, det_pc) := label in
  let correct_pc := String.eqb det_pc (target_pc (target st)) in
  let correct_string := det_string =? target_string (target st) in
  if correct_pc && correct_string then
    t <- random_target_string_and_note r1 r2 ;;
    Ret (mkLoopState t (last_event_label st) (last_event_time st), Correct, true)
  else if correct_pc then Ret (st, RightNoteWrongString, false)
  else Ret (st, DifferentNote, false).

(** What one pass of the inner loop did. *)
Inductive Outcome : Type :=
| NoPitch
| NoMatch
| Suppressed
| Heard (label : Label) (v : Verdict).

(** One pass of the inner loop (lines 150-183) on a chunk read at clock
    value [now]. *)
Definition loop_iteration (st : LoopState) (chunk : list Q) (now : Q) (r1 r2 : nat)
  : py (LoopState * Outcome) :=
  freq <- detect_pitch_from_chunk chunk ;;
  match freq with
  | None => Ret (st, NoPitch)
  | Some freq =>
      match nearest_fret_from_freq (Some (Q2R freq)) with
      | None => Ret (st, NoMatch)
      | Some (det_string, det_fret, det_midi, det_name) =>
          let det_pc := pitch_class_name det_midi in
          let label := (det_string, det_fret, det_pc) in
          match debounce_step st label now with
          | None => Ret (st, Suppressed)
          | Some st =>
              '(st, v, _) <- decide_step st label r1 r2 ;;
              Ret (st, Heard label v)
          end
      end
  end.

(** The accepted events of a run of the debounce step over a sequence of
    classified labels with their clock values. *)
Fixpoint accepted_events (st : LoopState) (events : list (Label * Q))
  : list (Label * Q) :=
  match events with
  | [] => []
  | (label, now) :: rest =>
      match debounce_step st label now with
      | None => accepted_events st rest
      | Some st' => (label, now) :: accepted_events st' rest
      end
  end.

(** The state in which [main] enters its loops, for a first target [t]. *)
Definition initial_state (t : Target) : LoopState := mkLoopState t None 0%Q.

(** The entries the inner loop of the fretboard construction appends for
    one item [(s, open_midi)] of the tuning table. *)
Definition string_entries (max_fret : Z) (item : Z * Z) : list FretPosition :=
  map (fun fret => (fst item, fret, snd item + fret,
                    midi_to_note_name (snd item + fret)))
      (range 0 (max_fret + 1)).

(** The test "the entry sits at fret [fret] of string [s]". *)
Definition at_position (s fret : Z) (e : FretPosition) : bool :=
  (fp_string e =? s) && (fp_fret e =? fret).

(** The distance [abs(midi_est - midi)] the scan computes for an entry. *)
Definition midi_distance (midi_est : R) (e : FretPosition) : R :=
  Rabs (midi_est - IZR (fp_midi e)).

(** A test buffer of 48 samples: two clicks 45 samples apart. *)
Definition two_clicks : list Q :=
  map (fun i => if (i =? 0) || (i =? 45) then 1%Q else 0%Q) (range 0 48).

(** The label line 165 builds from a mapped entry. *)
Definition label_of (e : FretPosition) : Label :=
  (fp_string e, fp_fret e, pitch_class_name (fp_midi e)).

(** The target lines 68-70 build from a chosen entry. *)
Definition target_of (e : FretPosition) : Target :=
  (fp_string e, fp_midi e, pitch_class_name (fp_midi e), fp_fret e, fp_name e).

(** What the outside world supplies to one pass of the inner loop: the
    chunk read from the stream, the clock value, and the two draws the
    generator makes if a new target is needed. *)
Definition Pass : Type := (list Q * Q * nat * nat)%type.

(** The loops of [main] (lines 141-183) run over the passes that take
    place before the keyboard interrupt; the outcomes are collected in
    place of the printed lines. *)
Fixpoint listen (st : LoopState) (passes : list Pass)
  : py (LoopState * list Outcome) :=
  match passes with
  | [] => Ret (st, [])
  | (chunk, now, r1, r2) :: rest =>
      '(st, o) <- loop_iteration st chunk now r1 r2 ;;
      '(st, os) <- listen st rest ;;
      Ret (st, o :: os)
  end.

(** [main]: the first target is drawn with [r1], [r2]; no event has been
    accepted yet and the clock of the last event is [0.0]. *)
Definition main (r1 r2 : nat) (passes : list Pass)
  : py (LoopState * list Outcome) :=
  t <- random_target_string_and_note r1 r2 ;;
  listen (initial_state t) passes.

(** Two accepted events next to each other: a repeated label needs at
    least [EVENT_DEBOUNCE_SECONDS] between its two clock values. *)
Definition spaced (a b : Label * Q) : Prop :=
  fst a = fst b -> (EVENT_DEBOUNCE_SECONDS <= snd b - snd a)%Q.

(** Lines 102-122 of the detector, on the buffer as it is after DC
    removal and normalisation. *)
Definition pitch_from_normalised (audio : list Q) : py (option Q) :=
  let corr := np_correlate_full audio audio in
  let corr := slice_from corr (Z.of_nat (List.length corr) / 2) in
  lag <- best_lag corr ;;
  match lag with
  | None => Ret None
  | Some lag =>
      let freq := (inject_Z SAMPLE_RATE / inject_Z lag)%Q in
      if Qlt_le_dec freq MIN_F0 then Ret None
      else if Qlt_le_dec MAX_F0 freq then Ret None
      else Ret (Some freq)
  end.

(** ** The analysis loop of [test_pitch.py]

    The script cuts its recording into chunks for an external pitch
    tracker (lines 27-30); its [BUFFER_SIZE] is the trainer's, 1024. *)

(** [range(lo, hi, step)] for a positive [step]. *)
Definition range_step (lo hi step : Z) : list Z :=
  map (fun k => lo + step * Z.of_nat k)
      (seq 0 (Z.to_nat ((hi - lo + step - 1) / step))).

(** [np.pad(chunk, (0, k))]: [k] zeros after the chunk. *)
Definition np_pad_right (chunk : list Q) (k : Z) : list Q :=
  chunk ++ repeat 0%Q (Z.to_nat k).

(** Lines 28-30: the chunk that starts at sample [i], padded with zeros
    when it is shorter than a buffer. *)
Definition padded_chunk (audio : list Q) (i : Z) : list Q :=
  let chunk := slice audio i (i + BUFFER_SIZE) in
  if Z.of_nat (List.length chunk) <? BUFFER_SIZE
  then np_pad_right chunk (BUFFER_SIZE - Z.of_nat (List.length chunk))
  else chunk.

(** The chunks the loop of line 27 hands to the tracker, in order. *)
Definition analysis_chunks (audio : list Q) : list (list Q) :=
  map (padded_chunk audio)
      (range_step 0 (Z.of_nat (List.length audio)) BUFFER_SIZE).

(** A 47-sample buffer: two clicks 45 samples apart. *)
Definition two_clicks_47 : list Q :=
  map (fun i => if (i =? 0) || (i =? 45) then 1%Q else 0%Q) (range 0 47).

(** * Properties *)

(** ** Ranges and choices *)

Lemma range_length (lo hi : Z) : List.length (range lo hi) = Z.to_nat (hi - lo).
Proof. unfold range. now rewrite length_map, length_seq. Qed.

Lemma in_range (lo hi x : Z) : In x (range lo hi) <-> lo <= x < hi.
Proof.
  unfold range. rewrite in_map_iff. split.
  - intros (i & <- & Hi). apply in_seq in Hi. lia.
  - intros H. exists (Z.to_nat (x - lo)). split; [lia |].
    apply in_seq. lia.
Qed.

Lemma range_NoDup (lo hi : Z) : NoDup (range lo hi).
Proof.
  unfold range. apply Injective_map_NoDup; [| apply seq_NoDup].
  intros i j H. lia.
Qed.

Lemma range_nth_error (lo hi : Z) (i : nat) :
  (i < Z.to_nat (hi - lo))%nat -> nth_error (range lo hi) i = Some (lo + Z.of_nat i).
Proof.
  intros Hi. unfold range. rewrite nth_error_map.
  rewrite (nth_error_nth' _ 0%nat) by (now rewrite length_seq).
  now rewrite seq_nth.
Qed.

(** A key occurring once is the only element a filter on it keeps. *)
Lemma filter_unique {A : Type} (p : A -> bool) (x : A) (l : list A) :
  NoDup l -> In x l -> p x = true ->
  (forall y, In y l -> p y = true -> y = x) ->
  filter p l = [x].
Proof.
  induction l as [| a l IH]; intros Hnd Hin Hp Huniq; [contradiction |].
  inversion Hnd as [| ? ? Hnotin Hnd']; subst. simpl.
  destruct Hin as [-> | Hin].
  - rewrite Hp. f_equal.
    assert (Hnone : forall y, In y l -> p y = false).
    { intros y Hy. destruct (p y) eqn:E; [| reflexivity].
      assert (y = x) by (apply Huniq; [now right | assumption]).
      subst. contradiction. }
    clear -Hnone. induction l as [| b l IH]; [reflexivity |].
    simpl. rewrite (Hnone b) by now left.
    apply IH. intros y Hy. apply Hnone. now right.
  - destruct (p a) eqn:E.
    + assert (a = x) by (apply Huniq; [now left | assumption]).
      subst. contradiction.
    + apply IH; auto. intros y Hy. apply Huniq. now right.
Qed.

Lemma filter_none {A : Type} (p : A -> bool) (l : list A) :
  (forall y, In y l -> p y = false) -> filter p l = [].
Proof.
  induction l as [| a l IH]; intros H; [reflexivity |].
  simpl. rewrite (H a) by now left. apply IH. intros y Hy. apply H. now right.
Qed.

(** [random.choice] returns a member of a non-empty sequence, whatever
    the draw. *)
Lemma choice_returns {A : Type} (r : nat) (l : list A) :
  l <> [] -> exists x, choice r l = Ret x /\ In x l.
Proof.
  intros Hne. unfold choice.
  assert (Hlt : (r mod List.length l < List.length l)%nat).
  { apply Nat.mod_upper_bound. destruct l; [contradiction | discriminate]. }
  destruct (nth_error l (r mod List.length l)) as [x |] eqn:E.
  - exists x. split; [reflexivity |]. eapply nth_error_In; eauto.
  - apply nth_error_None in E. lia.
Qed.

Lemma choice_empty {A : Type} (r : nat) : @choice A r [] = Raise "IndexError".
Proof. unfold choice. simpl. now destruct r. Qed.

(** ** Note helpers *)

Lemma note_index_in_range (midi_num : Z) :
  (Z.to_nat (midi_num mod 12) < List.length NOTE_NAMES)%nat.
Proof.
  assert (H : 0 <= midi_num mod 12 < 12) by (apply Z.mod_pos_bound; lia).
  simpl. lia.
Qed.

Lemma note_at_nth_error (midi_num : Z) :
  nth_error NOTE_NAMES (Z.to_nat (midi_num mod 12)) = Some (note_at (midi_num mod 12)).
Proof.
  unfold note_at. apply nth_error_nth'. apply note_index_in_range.
Qed.

Example midi_to_note_name_69 : midi_to_note_name 69 = "A4"%string.
Proof. reflexivity. Qed.

Example midi_to_note_name_60 : midi_to_note_name 60 = "C4"%string.
Proof. reflexivity. Qed.

Example midi_to_note_name_40 : midi_to_note_name 40 = "E2"%string.
Proof. reflexivity. Qed.

(** ** The fretboard *)

Section Fretboard.

Variable max_fret : Z.

Lemma append_string_app (acc : list FretPosition) (item : Z * Z) :
  append_string max_fret acc item = acc ++ (string_entries max_fret) item.
Proof.
  destruct item as [s open_midi]. unfold append_string, string_entries.
  simpl fst; simpl snd.
  generalize (range 0 (max_fret + 1)) as frets.
  intros frets. revert acc.
  induction frets as [| f frets IH]; intros acc; simpl.
  - now rewrite app_nil_r.
  - rewrite IH, <- app_assoc. reflexivity.
Qed.

Lemma fold_append_string (tuning : list (Z * Z)) (acc : list FretPosition) :
  fold_left (append_string max_fret) tuning acc
  = acc ++ flat_map (string_entries max_fret) tuning.
Proof.
  revert acc. induction tuning as [| item tuning IH]; intros acc; simpl.
  - now rewrite app_nil_r.
  - rewrite IH, append_string_app, <- app_assoc. reflexivity.
Qed.

(** The nested loops build the strings' blocks one after the other. *)
Lemma build_fretboard_flat_map (tuning : list (Z * Z)) :
  build_fretboard tuning max_fret = flat_map (string_entries max_fret) tuning.
Proof. unfold build_fretboard. now rewrite fold_append_string. Qed.

Lemma string_entries_length (item : Z * Z) :
  List.length ((string_entries max_fret) item) = Z.to_nat (max_fret + 1).
Proof.
  unfold string_entries. rewrite length_map, range_length.
  f_equal. lia.
Qed.

Lemma build_fretboard_length (tuning : list (Z * Z)) :
  List.length (build_fretboard tuning max_fret)
  = (List.length tuning * Z.to_nat (max_fret + 1))%nat.
Proof.
  rewrite build_fretboard_flat_map.
  induction tuning as [| item tuning IH]; simpl; [reflexivity |].
  now rewrite length_app, IH, string_entries_length.
Qed.

Lemma in_string_entries (item : Z * Z) (e : FretPosition) :
  In e ((string_entries max_fret) item) <->
  exists fret, 0 <= fret <= max_fret /\
    e = (fst item, fret, snd item + fret, midi_to_note_name (snd item + fret)).
Proof.
  unfold string_entries. rewrite in_map_iff. split.
  - intros (fret & <- & Hin). apply in_range in Hin.
    exists fret. split; [lia | reflexivity].
  - intros (fret & Hfret & ->). exists fret. split; [reflexivity |].
    apply in_range. lia.
Qed.

(** Membership: an entry is on the fretboard exactly when it is the
    position of some fret in [0, max_fret] on some string of the table. *)
Lemma in_build_fretboard (tuning : list (Z * Z)) (e : FretPosition) :
  In e (build_fretboard tuning max_fret) <->
  exists s open_midi fret,
    In (s, open_midi) tuning /\ 0 <= fret <= max_fret /\
    e = (s, fret, open_midi + fret, midi_to_note_name (open_midi + fret)).
Proof.
  rewrite build_fretboard_flat_map, in_flat_map. split.
  - intros ([s o] & Hin & He). apply in_string_entries in He.
    destruct He as (fret & Hfret & ->). now exists s, o, fret.
  - intros (s & o & fret & Hin & Hfret & ->). exists (s, o).
    split; [assumption |]. apply in_string_entries. now exists fret.
Qed.

Lemma filter_string_entries_same (s open_midi fret : Z) :
  0 <= fret <= max_fret ->
  filter (at_position s fret) ((string_entries max_fret) (s, open_midi))
  = [(s, fret, open_midi + fret, midi_to_note_name (open_midi + fret))].
Proof.
  intros Hfret. apply filter_unique.
  - unfold string_entries. apply Injective_map_NoDup; [| apply range_NoDup].
    intros a b H. now inversion H.
  - apply in_string_entries. now exists fret.
  - unfold at_position. simpl. now rewrite !Z.eqb_refl.
  - intros y Hy Hp. apply in_string_entries in Hy.
    destruct Hy as (f & _ & ->). unfold at_position in Hp. simpl in Hp.
    apply andb_prop in Hp. destruct Hp as [_ Hf].
    apply Z.eqb_eq in Hf. now subst.
Qed.

Lemma filter_string_entries_other (s fret : Z) (item : Z * Z) :
  fst item <> s -> filter (at_position s fret) ((string_entries max_fret) item) = [].
Proof.
  intros Hne. apply filter_none. intros y Hy.
  apply in_string_entries in Hy. destruct Hy as (f & _ & ->).
  unfold at_position. simpl.
  destruct (Z.eqb_spec (fst item) s); [contradiction | reflexivity].
Qed.

(** A dictionary has each key once: then each position of each string
    occurs exactly once on the fretboard, with the string's open note
    plus the fret as its MIDI number. *)
Lemma build_fretboard_unique (tuning : list (Z * Z)) (s open_midi fret : Z) :
  NoDup (keys tuning) -> In (s, open_midi) tuning -> 0 <= fret <= max_fret ->
  filter (at_position s fret) (build_fretboard tuning max_fret)
  = [(s, fret, open_midi + fret, midi_to_note_name (open_midi + fret))].
Proof.
  intros Hnd Hin Hfret. rewrite build_fretboard_flat_map.
  induction tuning as [| [s' o'] tuning IH]; [contradiction |].
  simpl in Hnd. inversion Hnd as [| ? ? Hnotin Hnd']; subst.
  simpl. rewrite filter_app.
  destruct Hin as [Heq | Hin].
  - inversion Heq; subst. rewrite filter_string_entries_same by assumption.
    rewrite (filter_none (at_position s fret) (flat_map (string_entries max_fret) tuning)).
    + reflexivity.
    + intros y Hy. apply in_flat_map in Hy. destruct Hy as ([s2 o2] & Hin2 & Hy).
      apply in_string_entries in Hy. destruct Hy as (f & _ & ->).
      unfold at_position. simpl.
      destruct (Z.eqb_spec s2 s); [| reflexivity].
      subst. exfalso. apply Hnotin. unfold keys.
      change s with (fst (s, o2)). now apply in_map.
  - rewrite filter_string_entries_other.
    + simpl. now apply IH.
    + simpl. intros ->. apply Hnotin. unfold keys.
      change s with (fst (s, open_midi)). now apply in_map.
Qed.

(** Generation order: the entry of fret [fret] on the [i]-th string of
    the table is at index [i * (max_fret + 1) + fret]. *)
Lemma build_fretboard_nth_error (tuning : list (Z * Z)) (i : nat) (s open_midi fret : Z) :
  nth_error tuning i = Some (s, open_midi) -> 0 <= fret <= max_fret ->
  nth_error (build_fretboard tuning max_fret)
            (i * Z.to_nat (max_fret + 1) + Z.to_nat fret)
  = Some (s, fret, open_midi + fret, midi_to_note_name (open_midi + fret)).
Proof.
  intros Hi Hfret. rewrite build_fretboard_flat_map. revert i Hi.
  induction tuning as [| item tuning IH]; intros i Hi.
  - now destruct i.
  - destruct i as [| i]; simpl in Hi.
    + inversion Hi; subst. simpl.
      rewrite nth_error_app1 by (rewrite string_entries_length; lia).
      unfold string_entries. rewrite nth_error_map.
      rewrite range_nth_error by lia. simpl.
      now rewrite !Z2Nat.id by lia.
    + simpl. rewrite nth_error_app2 by (rewrite string_entries_length; lia).
      rewrite string_entries_length.
      replace (Z.to_nat (max_fret + 1) + i * Z.to_nat (max_fret + 1)
               + Z.to_nat fret - Z.to_nat (max_fret + 1))%nat
        with (i * Z.to_nat (max_fret + 1) + Z.to_nat fret)%nat by lia.
      now apply IH.
Qed.

End Fretboard.

Lemma lookup_In (d : list (Z * Z)) (k v : Z) : lookup k d = Some v -> In (k, v) d.
Proof.
  induction d as [| [k' v'] d IH]; simpl; [discriminate |].
  destruct (Z.eqb_spec k' k).
  - intros H. inversion H; subst. now left.
  - intros H. right. now apply IH.
Qed.

Lemma In_lookup (d : list (Z * Z)) (k v : Z) :
  NoDup (keys d) -> In (k, v) d -> lookup k d = Some v.
Proof.
  induction d as [| [k' v'] d IH]; simpl; [contradiction |].
  intros Hnd Hin. inversion Hnd as [| ? ? Hnotin Hnd']; subst.
  destruct Hin as [Heq | Hin].
  - inversion Heq; subst. now rewrite Z.eqb_refl.
  - destruct (Z.eqb_spec k' k).
    + subst. exfalso. apply Hnotin. unfold keys.
      change k with (fst (k, v)). now apply in_map.
    + now apply IH.
Qed.

Lemma tuning_keys_NoDup : NoDup (keys STRING_TUNING_MIDI).
Proof.
  unfold keys, STRING_TUNING_MIDI. simpl.
  repeat (constructor; [simpl; intuition discriminate |]). constructor.
Qed.

(** C5.  The fretboard built at startup has, for every string [s] of the
    tuning table and every fret in [0, MAX_FRET], exactly one entry at
    that position, and its MIDI number is the string's open note plus the
    fret; the fretboard has [6 * (MAX_FRET + 1)] entries. *)
Theorem fretboard_positions (s open_midi fret : Z) :
  lookup s STRING_TUNING_MIDI = Some open_midi ->
  0 <= fret <= MAX_FRET ->
  filter (at_position s fret) FRETBOARD
  = [(s, fret, open_midi + fret, midi_to_note_name (open_midi + fret))]
  /\ Z.of_nat (List.length FRETBOARD) = 6 * (MAX_FRET + 1)
  /\ List.length (keys STRING_TUNING_MIDI) = 6%nat.
Proof.
  intros Hlook Hfret. split; [| split].
  - unfold FRETBOARD. apply build_fretboard_unique.
    + apply tuning_keys_NoDup.
    + now apply lookup_In.
    + assumption.
  - unfold FRETBOARD. rewrite build_fretboard_length. reflexivity.
  - reflexivity.
Qed.

Lemma fretboard_positions_witness :
  filter (at_position 5 3) FRETBOARD = [(5, 3, 45 + 3, midi_to_note_name (45 + 3))]
  /\ Z.of_nat (List.length FRETBOARD) = 6 * (MAX_FRET + 1)
  /\ List.length (keys STRING_TUNING_MIDI) = 6%nat.
Proof.
  apply (fretboard_positions 5 45 3).
  - reflexivity.
  - unfold MAX_FRET. lia.
Defined.

(** ** The random target *)

Lemma candidates_nonempty (s : Z) :
  In s (keys STRING_TUNING_MIDI) ->
  filter (fun entry => fp_string entry =? s) FRETBOARD <> [].
Proof.
  intros Hs Hnil. unfold keys in Hs. apply in_map_iff in Hs.
  destruct Hs as ([s' o] & Hfst & Hin). simpl in Hfst. subst s'.
  assert (Hmem : In (s, 0, o + 0, midi_to_note_name (o + 0)) FRETBOARD).
  { unfold FRETBOARD. apply in_build_fretboard. exists s, o, 0.
    repeat split; try assumption; unfold MAX_FRET; lia. }
  assert (Hf : In (s, 0, o + 0, midi_to_note_name (o + 0))
                  (filter (fun entry => fp_string entry =? s) FRETBOARD)).
  { apply filter_In. split; [assumption |]. simpl. apply Z.eqb_refl. }
  rewrite Hnil in Hf. contradiction.
Qed.

(** Whatever the draws, a string of the table and one of its positions
    on the fretboard are chosen, and the target is built from them. *)
Lemma random_target_returns (r1 r2 : nat) :
  exists (s : Z) (e : FretPosition),
    In s (keys STRING_TUNING_MIDI) /\ In e FRETBOARD /\ fp_string e = s
    /\ random_target_string_and_note r1 r2
       = Ret (s, fp_midi e, pitch_class_name (fp_midi e), fp_fret e, fp_name e).
Proof.
  unfold random_target_string_and_note.
  destruct (choice_returns r1 (keys STRING_TUNING_MIDI)) as (s & Hc1 & Hs);
    [discriminate |].
  rewrite Hc1. unfold bind at 1.
  destruct (choice_returns r2 (filter (fun entry => fp_string entry =? s) FRETBOARD))
    as (e & Hc2 & He); [now apply candidates_nonempty |].
  rewrite Hc2. unfold bind.
  apply filter_In in He. destruct He as [Hin Hstr].
  apply Z.eqb_eq in Hstr.
  exists s, e. destruct e as [[[s' fret] midi] name].
  repeat split; assumption.
Qed.

(** C10.  Whatever the two draws of the random generator, the target is
    returned (no exception) and is consistent: its string is a key of the
    tuning table, its fret is in [0, MAX_FRET], its MIDI number is the
    string's open note plus the fret, its pitch-class name is
    [NOTE_NAMES[midi mod 12]] and its full name is
    [midi_to_note_name midi]. *)
Theorem random_target_consistent (r1 r2 : nat) :
  exists string midi pc_name fret name open_midi,
    random_target_string_and_note r1 r2 = Ret (string, midi, pc_name, fret, name)
    /\ In string (keys STRING_TUNING_MIDI)
    /\ 0 <= fret <= MAX_FRET
    /\ lookup string STRING_TUNING_MIDI = Some open_midi
    /\ midi = open_midi + fret
    /\ nth_error NOTE_NAMES (Z.to_nat (midi mod 12)) = Some pc_name
    /\ name = midi_to_note_name midi.
Proof.
  destruct (random_target_returns r1 r2) as (s & e & Hs & Hin & Hstr & Hret).
  unfold FRETBOARD in Hin. apply in_build_fretboard in Hin.
  destruct Hin as (s' & o & fret & Hino & Hfret & ->).
  cbn [fp_string fp_midi fp_fret fp_name] in Hstr, Hret. subst s'.
  exists s, (o + fret), (pitch_class_name (o + fret)), fret,
    (midi_to_note_name (o + fret)), o.
  split; [exact Hret |].
  split; [assumption |].
  split; [assumption |].
  split; [apply In_lookup; [apply tuning_keys_NoDup | assumption] |].
  split; [reflexivity |].
  split; [apply note_at_nth_error | reflexivity].
Qed.

Example random_target_example :
  random_target_string_and_note 7 29 = Ret (5, 48, "C"%string, 3, "C3"%string).
Proof. reflexivity. Qed.

(** ** Frequency to MIDI *)

Lemma ln_2_pos : (0 < ln 2)%R.
Proof. rewrite <- ln_1. apply ln_increasing; lra. Qed.

Lemma log2_1 : log2 1 = 0%R.
Proof. unfold log2. rewrite ln_1. unfold Rdiv. apply Rmult_0_l. Qed.

Lemma log2_pow (n : nat) : log2 (2 ^ n) = INR n.
Proof.
  unfold log2. rewrite ln_pow by lra. field.
  pose proof ln_2_pos. lra.
Qed.

Lemma log2_increasing (x y : R) : (0 < x)%R -> (x < y)%R -> (log2 x < log2 y)%R.
Proof.
  intros Hx Hxy. unfold log2, Rdiv.
  apply Rmult_lt_compat_r.
  - apply Rinv_0_lt_compat, ln_2_pos.
  - now apply ln_increasing.
Qed.

Lemma freq_to_midi_positive (f : R) :
  (0 < f)%R -> freq_to_midi (Some f) = Some (69 + 12 * log2 (f / 440))%R.
Proof.
  intros Hf. unfold freq_to_midi.
  destruct (Rle_dec f 0) as [Hle | _]; [lra | reflexivity].
Qed.

Lemma freq_to_midi_nonpositive (f : R) :
  (f <= 0)%R -> freq_to_midi (Some f) = None.
Proof.
  intros Hf. unfold freq_to_midi.
  destruct (Rle_dec f 0) as [_ | Hn]; [reflexivity | contradiction].
Qed.

Lemma freq_to_midi_440 : freq_to_midi (Some 440%R) = Some 69%R.
Proof.
  rewrite freq_to_midi_positive by lra. f_equal.
  replace (440 / 440)%R with 1%R by (field; lra).
  rewrite log2_1. ring.
Qed.

Example freq_to_midi_880 : freq_to_midi (Some 880%R) = Some 81%R.
Proof.
  rewrite freq_to_midi_positive by lra. f_equal.
  replace (880 / 440)%R with (2 ^ 1)%R by (simpl; field).
  rewrite log2_pow. simpl. ring.
Qed.

(** *** On binary64 *)

(** [math.log2] returns a float or raises; [freq_to_midi] passes the
    float on. *)
Lemma freq_to_midi_guard_passed (libm_log2 : spec_float -> spec_float) (f : spec_float) :
  SFleb f (Binary64.float_of_int 0) = false ->
  Binary64.freq_to_midi libm_log2 (Some f) = Raise "ValueError"
  \/ exists est, Binary64.freq_to_midi libm_log2 (Some f) = Ret (Some est).
Proof.
  intros Hf. unfold Binary64.freq_to_midi. rewrite Hf.
  destruct (Binary64.math_log2 libm_log2
              (SFdiv Binary64.prec Binary64.emax f (Binary64.float_of_int 440)))
    as [l | e] eqn:El; cbn [bind].
  - right. eexists. reflexivity.
  - left. f_equal.
    destruct (SFdiv Binary64.prec Binary64.emax f (Binary64.float_of_int 440))
      as [s | [|] | | [|] m e']; simpl in El; congruence.
Qed.

(** On floats too, [None] comes back exactly for no frequency and for a
    frequency [<= 0] (NaN is not [<= 0]). *)
Lemma freq_to_midi_none_binary64
  (libm_log2 : spec_float -> spec_float) (frequency : option spec_float) :
  Binary64.freq_to_midi libm_log2 frequency = Ret None <->
  frequency = None
  \/ exists f, frequency = Some f /\ SFleb f (Binary64.float_of_int 0) = true.
Proof.
  destruct frequency as [f |]; split.
  - intros H. right. exists f. split; [reflexivity |].
    destruct (SFleb f (Binary64.float_of_int 0)) eqn:Hf; [reflexivity |].
    destruct (freq_to_midi_guard_passed libm_log2 f Hf) as [E | (est & E)];
      rewrite E in H; discriminate.
  - intros [H | (f' & H & Hle)]; [discriminate |].
    inversion H; subst f'. unfold Binary64.freq_to_midi. now rewrite Hle.
  - intros _. now left.
  - reflexivity.
Qed.

(** The quotients that round to zero: the first 220 positive floats. *)
Lemma div_440_underflow (m : positive) :
  (m <= 220)%positive ->
  SFdiv Binary64.prec Binary64.emax (S754_finite false m (-1074))
        (Binary64.float_of_int 440)
  = S754_zero false.
Proof.
  intros Hm.
  assert (Hall : forallb
            (fun k => match SFdiv Binary64.prec Binary64.emax
                                  (S754_finite false k (-1074))
                                  (Binary64.float_of_int 440) with
                      | S754_zero false => true
                      | _ => false
                      end)
            (map Pos.of_nat (seq 1 220)) = true)
    by (vm_compute; reflexivity).
  rewrite forallb_forall in Hall.
  assert (Hin : In m (map Pos.of_nat (seq 1 220))).
  { apply in_map_iff. exists (Pos.to_nat m). split; [apply Pos2Nat.id |].
    apply in_seq. lia. }
  specialize (Hall m Hin). cbv beta in Hall.
  destruct (SFdiv Binary64.prec Binary64.emax (S754_finite false m (-1074))
                  (Binary64.float_of_int 440)) as [[|] | | |];
    try discriminate. reflexivity.
Qed.

(** C7 (where the code departs from it).  A positive frequency can make
    [freq_to_midi] raise.  For each of the 220 smallest positive floats,
    [m * 2^-1074] with [m <= 220] (up to about 1.087e-321), the guard
    [frequency <= 0] is passed, the quotient [frequency / 440.0] rounds
    to [0.0], and [math.log2] raises [ValueError]: no estimate is
    returned, and [None] is not returned either. *)
Theorem freq_to_midi_underflow (libm_log2 : spec_float -> spec_float) (m : positive) :
  (m <= 220)%positive ->
  let f := S754_finite false m (-1074) in
  valid_binary Binary64.prec Binary64.emax f = true
  /\ SFltb (Binary64.float_of_int 0) f = true
  /\ SFdiv Binary64.prec Binary64.emax f (Binary64.float_of_int 440) = S754_zero false
  /\ Binary64.freq_to_midi libm_log2 (Some f) = Raise "ValueError".
Proof.
  intros Hm f. pose proof (div_440_underflow m Hm) as Hdiv. fold f in Hdiv.
  split; [| split; [reflexivity | split; [exact Hdiv |]]].
  - unfold f, valid_binary, bounded, canonical_mantissa, fexp, emin,
      Binary64.prec, Binary64.emax.
    assert (Hd : Zpos (digits2_pos m) <= 8).
    { assert (Hall : forallb (fun k => Zpos (digits2_pos k) <=? 8)
                             (map Pos.of_nat (seq 1 220)) = true)
        by (vm_compute; reflexivity).
      rewrite forallb_forall in Hall. apply Z.leb_le. apply Hall.
      apply in_map_iff. exists (Pos.to_nat m). split; [apply Pos2Nat.id |].
      apply in_seq. lia. }
    apply andb_true_intro. split; [apply Z.eqb_eq | apply Z.leb_le]; lia.
  - unfold Binary64.freq_to_midi.
    change (SFleb f (Binary64.float_of_int 0)) with false.
    rewrite Hdiv. reflexivity.
Qed.

Lemma freq_to_midi_underflow_witness :
  valid_binary Binary64.prec Binary64.emax (S754_finite false 1 (-1074)) = true
  /\ SFltb (Binary64.float_of_int 0) (S754_finite false 1 (-1074)) = true
  /\ SFdiv Binary64.prec Binary64.emax (S754_finite false 1 (-1074))
           (Binary64.float_of_int 440) = S754_zero false
  /\ Binary64.freq_to_midi (fun _ => S754_nan) (Some (S754_finite false 1 (-1074)))
     = Raise "ValueError".
Proof.
  apply (freq_to_midi_underflow (fun _ => S754_nan) 1%positive).
  vm_compute. discriminate.
Defined.

(** The next float, [221 * 2^-1074], is the first whose quotient does
    not vanish: it is [2^-1074], and an estimate is returned. *)
Example freq_to_midi_after_underflow (libm_log2 : spec_float -> spec_float) :
  Binary64.freq_to_midi libm_log2 (Some (S754_finite false 221 (-1074)))
  = Ret (Some (SFadd Binary64.prec Binary64.emax (Binary64.float_of_int 69)
                 (SFmul Binary64.prec Binary64.emax (Binary64.float_of_int 12)
                    (libm_log2 (S754_finite false 1 (-1074)))))).
Proof. reflexivity. Qed.

(** At 440 Hz the quotient is exactly 1.0; where the C library gives
    [log2(1.0) = 0.0], the estimate is exactly 69.0. *)
Lemma freq_to_midi_440_binary64 (libm_log2 : spec_float -> spec_float) :
  libm_log2 (Binary64.float_of_int 1) = S754_zero false ->
  Binary64.freq_to_midi libm_log2 (Some (Binary64.float_of_int 440))
  = Ret (Some (Binary64.float_of_int 69)).
Proof.
  intros Hlog. unfold Binary64.freq_to_midi.
  change (SFleb (Binary64.float_of_int 440) (Binary64.float_of_int 0)) with false.
  change (SFdiv Binary64.prec Binary64.emax (Binary64.float_of_int 440)
                (Binary64.float_of_int 440))
    with (Binary64.float_of_int 1).
  change (Binary64.math_log2 libm_log2 (Binary64.float_of_int 1))
    with (Ret (libm_log2 (Binary64.float_of_int 1))).
  cbn [bind]. rewrite Hlog. reflexivity.
Qed.

(** Zero and -5 give [None]. *)
Example freq_to_midi_nonpositive_binary64 (libm_log2 : spec_float -> spec_float) :
  Binary64.freq_to_midi libm_log2 (Some (Binary64.float_of_int 0)) = Ret None
  /\ Binary64.freq_to_midi libm_log2 (Some (Binary64.float_of_int (-5))) = Ret None.
Proof. split; reflexivity. Qed.

(** ** The nearest-fret scan *)

Section Scan.

Variable midi_est : R.

Local Abbreviation dist := (midi_distance midi_est).

Lemma scan_step_cases (b : option FretPosition) (d : R) (e : FretPosition) :
  ((dist e < d)%R /\ scan_step midi_est (b, d) e = (Some e, dist e))
  \/ ((d <= dist e)%R /\ scan_step midi_est (b, d) e = (b, d)).
Proof.
  destruct e as [[[s fret] midi] name].
  unfold scan_step, midi_distance. simpl.
  destruct (Rlt_dec (Rabs (midi_est - IZR midi)) d) as [Hlt | Hge].
  - left. now split.
  - right. split; [lra | reflexivity].
Qed.

(** Entries no nearer than the running best leave the state alone. *)
Lemma scan_skip (l : list FretPosition) (b : option FretPosition) (d : R) :
  (forall x, In x l -> (d <= dist x)%R) ->
  fold_left (scan_step midi_est) l (b, d) = (b, d).
Proof.
  induction l as [| e l IH]; intros H; [reflexivity |].
  simpl. destruct (scan_step_cases b d e) as [[Hlt _] | [_ ->]].
  - specialize (H e (or_introl eq_refl)). lra.
  - apply IH. intros x Hx. apply H. now right.
Qed.

(** The loop invariant, read at the end of the scan: either nothing beat
    the initial bound, or the result is the first entry of minimal
    distance, and that distance is below the initial bound. *)
Lemma scan_result (l : list FretPosition) (b : option FretPosition) (d : R) :
  (fold_left (scan_step midi_est) l (b, d) = (b, d)
   /\ forall x, In x l -> (d <= dist x)%R)
  \/ (exists pre e post,
         l = pre ++ e :: post
         /\ fold_left (scan_step midi_est) l (b, d) = (Some e, dist e)
         /\ (dist e < d)%R
         /\ (forall x, In x pre -> (dist e < dist x)%R)
         /\ (forall x, In x post -> (dist e <= dist x)%R)).
Proof.
  revert b d. induction l as [| e l IH]; intros b d.
  - left. split; [reflexivity | intros x []].
  - simpl. destruct (scan_step_cases b d e) as [[Hlt ->] | [Hge ->]].
    + right. destruct (IH (Some e) (dist e)) as [[Heq Hall] | Hupd].
      * exists [], e, l. repeat split; auto. intros x [].
      * destruct Hupd as (pre & e' & post & -> & Heq & Hlt' & Hpre & Hpost).
        exists (e :: pre), e', post. repeat split; auto; try lra.
        intros x [<- | Hx]; [assumption | now apply Hpre].
    + destruct (IH b d) as [[Heq Hall] | Hupd].
      * left. split; [assumption |].
        intros x [<- | Hx]; [assumption | now apply Hall].
      * right. destruct Hupd as (pre & e' & post & -> & Heq & Hlt' & Hpre & Hpost).
        exists (e :: pre), e', post. repeat split; auto.
        intros x [<- | Hx]; [lra | now apply Hpre].
Qed.

(** The scan returns no entry exactly when no entry is nearer than 999. *)
Lemma nearest_scan_none (l : list FretPosition) :
  nearest_scan l midi_est = None <-> forall x, In x l -> (999 <= dist x)%R.
Proof.
  unfold nearest_scan. split.
  - intros H. destruct (scan_result l None 999%R) as [[_ Hall] | Hupd]; [assumption |].
    destruct Hupd as (pre & e & post & _ & Heq & _). rewrite Heq in H. discriminate.
  - intros H. now rewrite scan_skip.
Qed.

(** What a returned entry is. *)
Lemma nearest_scan_some (l : list FretPosition) (e : FretPosition) :
  nearest_scan l midi_est = Some e ->
  exists pre post,
    l = pre ++ e :: post
    /\ (dist e < 999)%R
    /\ (forall x, In x pre -> (dist e < dist x)%R)
    /\ (forall x, In x post -> (dist e <= dist x)%R).
Proof.
  unfold nearest_scan. intros H.
  destruct (scan_result l None 999%R) as [[Heq _] | Hupd].
  - rewrite Heq in H. discriminate.
  - destruct Hupd as (pre & e' & post & Hl & Heq & Hlt & Hpre & Hpost).
    rewrite Heq in H. simpl in H. inversion H; subst e'.
    now exists pre, post.
Qed.

(** The converse: the first entry of minimal distance, when nearer than
    999, is what the scan returns. *)
Lemma nearest_scan_first_min (pre post : list FretPosition) (e : FretPosition) :
  (dist e < 999)%R ->
  (forall x, In x pre -> (dist e < dist x)%R) ->
  (forall x, In x post -> (dist e <= dist x)%R) ->
  nearest_scan (pre ++ e :: post) midi_est = Some e.
Proof.
  unfold nearest_scan. generalize (@None FretPosition) as b. generalize 999%R as d.
  induction pre as [| x pre IH]; intros d b Hlt Hpre Hpost; simpl.
  - destruct (scan_step_cases b d e) as [[_ ->] | [Hge _]]; [| lra].
    now rewrite scan_skip.
  - assert (Hpre' : forall y, In y pre -> (dist e < dist y)%R)
      by (intros y Hy; apply Hpre; now right).
    destruct (scan_step_cases b d x) as [[_ ->] | [_ ->]].
    + apply IH; [apply Hpre; now left | assumption | assumption].
    + apply IH; assumption.
Qed.

End Scan.

(** When the estimate is an integer, the distances are integers, and the
    side conditions of the scan lemmas can be computed. *)
Lemma midi_distance_IZR (n : Z) (e : FretPosition) :
  midi_distance (IZR n) e = IZR (Z.abs (n - fp_midi e)).
Proof. unfold midi_distance. now rewrite <- minus_IZR, <- abs_IZR. Qed.

Lemma forallb_In {A : Type} (p : A -> bool) (l : list A) (x : A) :
  forallb p l = true -> In x l -> p x = true.
Proof. intros H Hin. rewrite forallb_forall in H. now apply H. Qed.

Lemma nearest_scan_integer (n : Z) (pre post : list FretPosition) (e : FretPosition) :
  Z.abs (n - fp_midi e) < 999 ->
  forallb (fun x => Z.abs (n - fp_midi e) <? Z.abs (n - fp_midi x)) pre = true ->
  forallb (fun x => Z.abs (n - fp_midi e) <=? Z.abs (n - fp_midi x)) post = true ->
  nearest_scan (pre ++ e :: post) (IZR n) = Some e.
Proof.
  intros Hlt Hpre Hpost. apply nearest_scan_first_min.
  - rewrite midi_distance_IZR. now apply IZR_lt.
  - intros x Hx. rewrite !midi_distance_IZR. apply IZR_lt.
    apply Z.ltb_lt. exact (forallb_In _ _ _ Hpre Hx).
  - intros x Hx. rewrite !midi_distance_IZR. apply IZR_le.
    apply Z.leb_le. exact (forallb_In _ _ _ Hpost Hx).
Qed.

Lemma nearest_scan_integer_none (n : Z) (l : list FretPosition) :
  forallb (fun x => 999 <=? Z.abs (n - fp_midi x)) l = true ->
  nearest_scan l (IZR n) = None.
Proof.
  intros H. apply nearest_scan_none. intros x Hx.
  rewrite midi_distance_IZR. apply IZR_le.
  apply Z.leb_le. exact (forallb_In _ _ _ H Hx).
Qed.

(** ** Nearest fret on the fretboard *)

Lemma fretboard_nonempty : FRETBOARD <> [].
Proof. intros H. apply (f_equal (@List.length _)) in H. vm_compute in H. discriminate. Qed.

(** Every MIDI number on the fretboard is between 40 (open low E) and 76
    (twelfth fret of the high E string). *)
Lemma fretboard_midi_bounds (e : FretPosition) :
  In e FRETBOARD -> 40 <= fp_midi e <= 76.
Proof.
  intros Hin.
  assert (H : forallb (fun x => (40 <=? fp_midi x) && (fp_midi x <=? 76)) FRETBOARD = true)
    by (vm_compute; reflexivity).
  pose proof (forallb_In _ _ _ H Hin) as Hb. simpl in Hb.
  apply andb_prop in Hb. destruct Hb as [H1 H2].
  apply Z.leb_le in H1. apply Z.leb_le in H2. lia.
Qed.

Lemma low_E_on_fretboard : In (6, 0, 40, "E2"%string) FRETBOARD.
Proof.
  unfold FRETBOARD. apply in_build_fretboard. exists 6, 40, 0.
  split; [now left | split; [unfold MAX_FRET; lia | reflexivity]].
Qed.

(** C2.  Whenever [nearest_fret_from_freq] returns an entry for an
    estimate [midi_est], the entry is on the fretboard at some index [i],
    no entry of the fretboard is nearer to the estimate, and every entry
    before index [i] is strictly farther: the first entry of minimal
    distance in generation order wins.  Generation order is: strings in
    the order of the tuning table, frets ascending within a string. *)
Theorem nearest_fret_first_minimum (freq : option R) (midi_est : R) (e : FretPosition) :
  freq_to_midi freq = Some midi_est ->
  nearest_fret_from_freq freq = Some e ->
  (exists i : nat,
      nth_error FRETBOARD i = Some e
      /\ (forall e', In e' FRETBOARD ->
            (midi_distance midi_est e <= midi_distance midi_est e')%R)
      /\ (forall (j : nat) e', (j < i)%nat -> nth_error FRETBOARD j = Some e' ->
            (midi_distance midi_est e < midi_distance midi_est e')%R))
  /\ (forall (k : nat) (s open_midi fret : Z),
        nth_error STRING_TUNING_MIDI k = Some (s, open_midi) ->
        0 <= fret <= MAX_FRET ->
        nth_error FRETBOARD (k * Z.to_nat (MAX_FRET + 1) + Z.to_nat fret)
        = Some (s, fret, open_midi + fret, midi_to_note_name (open_midi + fret))).
Proof.
  intros Hmidi Hres. split.
  - unfold nearest_fret_from_freq in Hres. rewrite Hmidi in Hres.
    apply nearest_scan_some in Hres.
    destruct Hres as (pre & post & Hl & _ & Hpre & Hpost).
    exists (List.length pre). rewrite Hl. split; [| split].
    + rewrite nth_error_app2 by lia. now rewrite Nat.sub_diag.
    + intros e' Hin. apply in_app_or in Hin. destruct Hin as [Hin | [<- | Hin]].
      * apply Rlt_le. now apply Hpre.
      * apply Rle_refl.
      * now apply Hpost.
    + intros j e' Hj Hnth. rewrite nth_error_app1 in Hnth by assumption.
      apply Hpre. eapply nth_error_In; eauto.
  - intros k s o fret Hk Hfret. unfold FRETBOARD.
    now apply build_fretboard_nth_error.
Qed.

(** At 440 Hz the estimate is 69, which two positions carry: fret 10 of
    string 2 and fret 5 of string 1.  String 2 comes first in the tuning
    table, so its position is returned. *)
Lemma nearest_fret_440 :
  nearest_fret_from_freq (Some 440%R) = Some (2, 10, 69, "A4"%string).
Proof.
  unfold nearest_fret_from_freq. rewrite freq_to_midi_440.
  replace FRETBOARD
    with (firstn 62 FRETBOARD ++ (2, 10, 69, "A4"%string) :: skipn 63 FRETBOARD)
    by (vm_compute; reflexivity).
  apply nearest_scan_integer.
  - vm_compute. reflexivity.
  - vm_compute. reflexivity.
  - vm_compute. reflexivity.
Qed.

Lemma nearest_fret_first_minimum_witness :
  exists i : nat,
    nth_error FRETBOARD i = Some (2, 10, 69, "A4"%string)
    /\ (forall e', In e' FRETBOARD ->
          (midi_distance 69 (2%Z, 10%Z, 69%Z, "A4"%string) <= midi_distance 69 e')%R)
    /\ (forall (j : nat) e', (j < i)%nat -> nth_error FRETBOARD j = Some e' ->
          (midi_distance 69 (2%Z, 10%Z, 69%Z, "A4"%string) < midi_distance 69 e')%R).
Proof.
  apply (nearest_fret_first_minimum (Some 440%R) 69%R (2, 10, 69, "A4"%string)).
  - exact freq_to_midi_440.
  - exact nearest_fret_440.
Defined.

(** An estimate exactly half-way between two MIDI numbers. *)
Lemma midi_distance_half (n : Z) (e : FretPosition) :
  midi_distance (IZR n / 2) e = (IZR (Z.abs (n - 2 * fp_midi e)) / 2)%R.
Proof.
  unfold midi_distance.
  replace (IZR n / 2 - IZR (fp_midi e))%R with (IZR (n - 2 * fp_midi e) / 2)%R
    by (rewrite minus_IZR, mult_IZR; field).
  unfold Rdiv. rewrite Rabs_mult, (Rabs_right (/ 2)) by lra.
  now rewrite <- abs_IZR.
Qed.

Lemma nearest_scan_half_integer (n : Z) (pre post : list FretPosition) (e : FretPosition) :
  Z.abs (n - 2 * fp_midi e) < 1998 ->
  forallb (fun x => Z.abs (n - 2 * fp_midi e) <? Z.abs (n - 2 * fp_midi x)) pre = true ->
  forallb (fun x => Z.abs (n - 2 * fp_midi e) <=? Z.abs (n - 2 * fp_midi x)) post = true ->
  nearest_scan (pre ++ e :: post) (IZR n / 2) = Some e.
Proof.
  intros Hlt Hpre Hpost. apply nearest_scan_first_min.
  - rewrite midi_distance_half. apply IZR_lt in Hlt. lra.
  - intros x Hx. rewrite !midi_distance_half.
    pose proof (forallb_In _ _ _ Hpre Hx) as H. cbv beta in H.
    apply Z.ltb_lt, IZR_lt in H. lra.
  - intros x Hx. rewrite !midi_distance_half.
    pose proof (forallb_In _ _ _ Hpost Hx) as H. cbv beta in H.
    apply Z.leb_le, IZR_le in H. lra.
Qed.

(** The estimate 44.5 is as far from 44 as from 45: the scan keeps the
    entry it met first, fret 4 of string 6. *)
Example nearest_scan_between :
  nearest_scan FRETBOARD (89 / 2) = Some (6, 4, 44, "G#2"%string).
Proof.
  replace FRETBOARD
    with (firstn 4 FRETBOARD ++ (6, 4, 44, "G#2"%string) :: skipn 5 FRETBOARD)
    by (vm_compute; reflexivity).
  apply nearest_scan_half_integer; vm_compute; reflexivity.
Qed.

(** The scan starts from the bound [best_dist = 999.0]: it returns an
    entry exactly when some entry is nearer than 999 to the estimate. *)
Lemma nearest_scan_returns (midi_est : R) :
  (exists e, nearest_scan FRETBOARD midi_est = Some e)
  <-> exists x, In x FRETBOARD /\ (midi_distance midi_est x < 999)%R.
Proof.
  split.
  - intros (e & He). apply nearest_scan_some in He.
    destruct He as (pre & post & Hl & Hlt & _). exists e. split; [| assumption].
    rewrite Hl. apply in_or_app. right. now left.
  - intros (x & Hin & Hlt).
    destruct (nearest_scan FRETBOARD midi_est) as [e |] eqn:E; [now exists e |].
    pose proof (proj1 (nearest_scan_none midi_est FRETBOARD) E x Hin). lra.
Qed.

Lemma log2_inv_pow (n : nat) : log2 (/ 2 ^ n) = (- INR n)%R.
Proof.
  unfold log2. rewrite ln_Rinv by (apply pow_lt; lra).
  rewrite ln_pow by lra. field. pose proof ln_2_pos. lra.
Qed.

(** Every frequency the detector can return (70 Hz to 1000 Hz) is mapped
    to an estimate between 33 and 93, within reach of the fretboard: the
    main loop always gets an entry. *)
Lemma nearest_fret_in_band (f : R) :
  (70 <= f <= 1000)%R -> exists e, nearest_fret_from_freq (Some f) = Some e.
Proof.
  intros Hf. unfold nearest_fret_from_freq.
  rewrite freq_to_midi_positive by lra.
  apply nearest_scan_returns. exists (6, 0, 40, "E2"%string).
  split; [apply low_E_on_fretboard |].
  assert (Hlo : (-3 < log2 (f / 440))%R).
  { replace (-3)%R with (- INR 3)%R by (simpl; ring).
    rewrite <- log2_inv_pow. apply log2_increasing.
    - apply Rinv_0_lt_compat, pow_lt. lra.
    - simpl. lra. }
  assert (Hhi : (log2 (f / 440) < 2)%R).
  { replace 2%R with (INR 2)%R by (simpl; ring).
    rewrite <- log2_pow. apply log2_increasing.
    - apply Rdiv_lt_0_compat; lra.
    - simpl. lra. }
  unfold midi_distance. simpl fp_midi.
  apply Rabs_def1; lra.
Qed.

(** C1 (where the code departs from it).  At the frequency
    [440 * 2^100] Hz the estimate is 1269, more than 999 away from every
    MIDI number of the fretboard: the scan never beats its initial bound
    and [nearest_fret_from_freq] returns [None], although the fretboard
    is not empty. *)
Theorem nearest_fret_far_frequency :
  FRETBOARD <> []
  /\ freq_to_midi (Some (440 * 2 ^ 100)%R) = Some 1269%R
  /\ nearest_fret_from_freq (Some (440 * 2 ^ 100)%R) = None.
Proof.
  assert (Hmidi : freq_to_midi (Some (440 * 2 ^ 100)%R) = Some 1269%R).
  { assert (Hpos : (0 < 2 ^ 100)%R) by (apply pow_lt; lra).
    rewrite freq_to_midi_positive by lra. f_equal.
    replace (440 * 2 ^ 100 / 440)%R with (2 ^ 100)%R by (field; lra).
    rewrite log2_pow, INR_IZR_INZ. simpl Z.of_nat. lra. }
  split; [apply fretboard_nonempty | split; [exact Hmidi |]].
  unfold nearest_fret_from_freq. rewrite Hmidi.
  apply nearest_scan_integer_none. vm_compute. reflexivity.
Qed.

(** ** Arrays *)

Lemma np_correlate_full_length (a v : list Q) :
  List.length (np_correlate_full a v)
  = Z.to_nat (Z.of_nat (List.length a) + Z.of_nat (List.length v) - 1).
Proof.
  unfold np_correlate_full. rewrite length_map, range_length. f_equal. lia.
Qed.

Lemma slice_index_in_bounds (len i : Z) :
  0 <= i <= len -> slice_index len i = Z.to_nat i.
Proof.
  intros H. unfold slice_index.
  destruct (Z.ltb_spec i 0); [lia |]. f_equal. lia.
Qed.

Lemma slice_index_le (len i : Z) : 0 <= len -> (slice_index len i <= Z.to_nat len)%nat.
Proof.
  intros H. unfold slice_index. destruct (Z.ltb_spec i 0); lia.
Qed.

(** A slice with bounds inside the array is not clipped. *)
Lemma slice_length {A : Type} (a : list A) (lo hi : Z) :
  0 <= lo <= hi -> hi <= Z.of_nat (List.length a) ->
  List.length (slice a lo hi) = Z.to_nat (hi - lo).
Proof.
  intros Hlo Hhi. unfold slice.
  rewrite !slice_index_in_bounds by lia.
  rewrite length_firstn, length_skipn. lia.
Qed.

Lemma slice_from_length {A : Type} (a : list A) (lo : Z) :
  0 <= lo <= Z.of_nat (List.length a) ->
  List.length (slice_from a lo) = (List.length a - Z.to_nat lo)%nat.
Proof.
  intros H. unfold slice_from.
  now rewrite slice_index_in_bounds, length_skipn by lia.
Qed.

(** The slice assignment keeps the array's length. *)
Lemma zero_prefix_length (a : list Q) (hi : Z) :
  List.length (zero_prefix a hi) = List.length a.
Proof.
  unfold zero_prefix. rewrite length_app, length_map, length_firstn, length_skipn.
  lia.
Qed.

Lemma argmax_from_bound (a : list Q) (i best_i : nat) (best : Q) :
  (best_i < i)%nat -> (argmax_from a i best_i best < i + List.length a)%nat.
Proof.
  revert i best_i best. induction a as [| y a IH]; intros i best_i best H; simpl.
  - lia.
  - destruct (Qlt_le_dec best y).
    + specialize (IH (S i) i y). lia.
    + specialize (IH (S i) best_i best). lia.
Qed.

(** [np.argmax] of a non-empty array returns one of its indices. *)
Lemma np_argmax_returns (a : list Q) :
  a <> [] -> exists k, np_argmax a = Ret k /\ (k < List.length a)%nat.
Proof.
  destruct a as [| x a]; [contradiction |]. intros _.
  exists (argmax_from a 1 0 x). split; [reflexivity |].
  pose proof (argmax_from_bound a 1 0 x). simpl. lia.
Qed.

Lemma Qmax2_cases (m y : Q) : Qmax2 m y = m \/ Qmax2 m y = y.
Proof. unfold Qmax2. destruct (Qlt_le_dec m y); auto. Qed.

Lemma fold_Qmax2_In (a : list Q) (x : Q) : In (fold_left Qmax2 a x) (x :: a).
Proof.
  revert x. induction a as [| y a IH]; intros x; simpl; [now left |].
  destruct (Qmax2_cases x y) as [-> | ->].
  - destruct (IH x) as [H | H]; [now left | right; now right].
  - right. apply IH.
Qed.

(** [np.max] of a non-empty array returns one of its elements. *)
Lemma np_max_returns (a : list Q) :
  a <> [] -> exists m, np_max a = Ret m /\ In m a.
Proof.
  destruct a as [| x a]; [contradiction |]. intros _.
  exists (fold_left Qmax2 a x). split; [reflexivity | apply fold_Qmax2_In].
Qed.

Lemma dc_removed_length (audio : list Q) :
  List.length (dc_removed audio) = List.length audio.
Proof. unfold dc_removed. apply length_map. Qed.

Lemma peak_amplitude_returns (audio : list Q) :
  audio <> [] ->
  exists peak, peak_amplitude audio = Ret peak
               /\ In peak (map Qabs (dc_removed audio)).
Proof.
  intros Hne. apply np_max_returns. intros H.
  apply (f_equal (@List.length _)) in H.
  rewrite length_map, dc_removed_length in H.
  destruct audio; [contradiction | discriminate].
Qed.

(** The non-negative-lag half of the autocorrelation has as many
    entries as the buffer. *)
Lemma autocorrelation_length (audio corr : list Q) :
  audio <> [] -> autocorrelation audio = Ret (Some corr) ->
  List.length corr = List.length audio.
Proof.
  intros Hne. unfold autocorrelation.
  destruct (peak_amplitude_returns audio Hne) as (peak & Hpeak & _).
  unfold peak_amplitude in Hpeak. rewrite Hpeak. unfold bind.
  destruct (Qlt_le_dec peak AMPLITUDE_THRESHOLD); [discriminate |].
  intros H. inversion H; subst corr. clear H.
  set (a := map (fun x => (x / peak)%Q) (dc_removed audio)).
  assert (Ha : List.length a = List.length audio)
    by (unfold a; now rewrite length_map, dc_removed_length).
  assert (Hn : (1 <= List.length audio)%nat)
    by (destruct audio; [contradiction | simpl; lia]).
  assert (Hlen : List.length (np_correlate_full a a)
                 = (2 * List.length audio - 1)%nat)
    by (rewrite np_correlate_full_length, Ha; lia).
  assert (Hhalf : Z.of_nat (List.length (np_correlate_full a a)) / 2
                  = Z.of_nat (List.length audio) - 1).
  { rewrite Hlen. symmetry.
    apply (Z.div_unique _ 2 _ 1); lia. }
  rewrite Hhalf, slice_from_length by lia. lia.
Qed.

(** ** The lag window *)

Lemma min_lag_value : min_lag = 44.
Proof. reflexivity. Qed.

Lemma max_lag_unclamped_value : max_lag_unclamped = 630.
Proof. reflexivity. Qed.

(** For the positive quotients at hand, [int] is the floor. *)
Lemma lags_are_floors :
  min_lag = Qfloor (inject_Z SAMPLE_RATE / MAX_F0)
  /\ max_lag_unclamped = Qfloor (inject_Z SAMPLE_RATE / MIN_F0).
Proof. split; reflexivity. Qed.

(** The clamp of lines 108-109 is the minimum with the last index. *)
Lemma lag_window_cases (len_corr : Z) :
  (min_lag >= Z.min max_lag_unclamped (len_corr - 1) /\ lag_window len_corr = None)
  \/ (min_lag < Z.min max_lag_unclamped (len_corr - 1)
      /\ lag_window len_corr
         = Some (min_lag, Z.min max_lag_unclamped (len_corr - 1))).
Proof.
  unfold lag_window. rewrite min_lag_value, max_lag_unclamped_value.
  destruct (Z.geb_spec 630 len_corr) as [H | H].
  - replace (Z.min 630 (len_corr - 1)) with (len_corr - 1) by lia.
    destruct (Z.geb_spec 44 (len_corr - 1)); [left | right]; split;
      try reflexivity; lia.
  - replace (Z.min 630 (len_corr - 1)) with 630 by lia.
    right. split; [lia | reflexivity].
Qed.

Lemma lag_window_short (len_corr : Z) : len_corr < 46 -> lag_window len_corr = None.
Proof.
  intros H. destruct (lag_window_cases len_corr) as [[_ ->] | [Hlt _]];
    [reflexivity |].
  rewrite min_lag_value, max_lag_unclamped_value in Hlt. lia.
Qed.

(** When the array is exactly as long as the unclamped bound, the bound
    is clamped to the last index. *)
Example lag_window_equal_length : lag_window 630 = Some (44, 629).
Proof. reflexivity. Qed.

Example lag_window_buffer : lag_window BUFFER_SIZE = Some (44, 630).
Proof. reflexivity. Qed.

(** With a window, the search runs on a non-empty slice and returns a
    lag inside the window. *)
Lemma best_lag_in_window (corr : list Q) (lo hi : Z) :
  lag_window (Z.of_nat (List.length corr)) = Some (lo, hi) ->
  exists lag, best_lag corr = Ret (Some lag) /\ lo <= lag < hi.
Proof.
  intros Hw. unfold best_lag. rewrite Hw.
  destruct (lag_window_cases (Z.of_nat (List.length corr))) as [[_ Hn] | [Hlt Hs]];
    [congruence |].
  rewrite Hs in Hw. inversion Hw; subst lo hi. clear Hw Hs.
  rewrite min_lag_value, max_lag_unclamped_value in *.
  set (hi := Z.min 630 (Z.of_nat (List.length corr) - 1)) in *.
  assert (Hlen : List.length (slice (zero_prefix corr 44) 44 hi) = Z.to_nat (hi - 44))
    by (apply slice_length; rewrite ?zero_prefix_length; lia).
  destruct (np_argmax_returns (slice (zero_prefix corr 44) 44 hi)) as (k & Hk & Hkb).
  { intros Hnil. rewrite Hnil in Hlen. simpl in Hlen. lia. }
  rewrite Hk. unfold bind.
  destruct (Z.leb_spec (Z.of_nat k + 44) 0); [lia |].
  exists (Z.of_nat k + 44). split; [reflexivity | lia].
Qed.

Lemma best_lag_no_window (corr : list Q) :
  lag_window (Z.of_nat (List.length corr)) = None -> best_lag corr = Ret None.
Proof. intros H. unfold best_lag. now rewrite H. Qed.

(** C6.  The lag window is [min_lag = floor(44100 / 1000) = 44] and
    [max_lag = floor(44100 / 70) = 630], the latter clamped to the last
    index of the correlation array whenever it is greater than or equal
    to the array's length (the equality case included).  Without
    [min_lag < max_lag] after the clamp the search returns [None].
    Otherwise both slice bounds are indices of the array, the slice read
    by [argmax] has exactly [max_lag - min_lag] entries, the zeroing
    keeps the length, and the lag found is an index of the array inside
    the window; no exception is raised. *)
Theorem lag_window_in_bounds (corr : list Q) :
  let n := Z.of_nat (List.length corr) in
  (min_lag = Qfloor (inject_Z SAMPLE_RATE / MAX_F0) /\ min_lag = 44)
  /\ (max_lag_unclamped = Qfloor (inject_Z SAMPLE_RATE / MIN_F0)
      /\ max_lag_unclamped = 630)
  /\ (lag_window n = None <-> min_lag >= Z.min max_lag_unclamped (n - 1))
  /\ (lag_window n = None -> best_lag corr = Ret None)
  /\ (forall lo hi, lag_window n = Some (lo, hi) ->
        lo = min_lag
        /\ hi = (if max_lag_unclamped >=? n then n - 1 else max_lag_unclamped)
        /\ 0 <= lo < hi /\ hi <= n - 1
        /\ List.length (zero_prefix corr lo) = List.length corr
        /\ List.length (slice (zero_prefix corr lo) lo hi) = Z.to_nat (hi - lo)
        /\ exists lag, best_lag corr = Ret (Some lag) /\ lo <= lag < hi).
Proof.
  intros n. split; [| split; [| split; [| split]]].
  - split; reflexivity.
  - split; reflexivity.
  - destruct (lag_window_cases n) as [[Hge Hn] | [Hlt Hs]]; rewrite ?Hn, ?Hs.
    + tauto.
    + split; [discriminate | lia].
  - apply best_lag_no_window.
  - intros lo hi Hw.
    destruct (lag_window_cases n) as [[_ Hn] | [Hlt Hs]]; [congruence |].
    pose proof (best_lag_in_window corr lo hi Hw) as Hbest.
    rewrite Hs in Hw. inversion Hw; subst lo hi. clear Hw.
    rewrite min_lag_value, max_lag_unclamped_value in *.
    assert (Hmin : Z.min 630 (n - 1) = (if 630 >=? n then n - 1 else 630))
      by (destruct (Z.geb_spec 630 n); lia).
    repeat split; try lia; try assumption.
    + apply zero_prefix_length.
    + apply slice_length; rewrite ?zero_prefix_length; fold n; lia.
Qed.

Lemma lag_window_in_bounds_witness :
  exists lag, best_lag (repeat 0%Q 630) = Ret (Some lag) /\ 44 <= lag < 629.
Proof.
  pose proof (lag_window_in_bounds (repeat 0%Q 630)) as H.
  cbv zeta in H. destruct H as (_ & _ & _ & _ & H).
  apply (H 44 629). reflexivity.
Defined.

(** ** The detector's early returns *)

Lemma detect_empty : detect_pitch_from_chunk [] = Ret None.
Proof. reflexivity. Qed.

Lemma detect_nonempty_unfold (audio : list Q) :
  audio <> [] ->
  detect_pitch_from_chunk audio
  = (corr <- autocorrelation audio ;;
     match corr with
     | None => Ret None
     | Some corr =>
         lag <- best_lag corr ;;
         match lag with
         | None => Ret None
         | Some lag =>
             let freq := (inject_Z SAMPLE_RATE / inject_Z lag)%Q in
             if Qlt_le_dec freq MIN_F0 then Ret None
             else if Qlt_le_dec MAX_F0 freq then Ret None
             else Ret (Some freq)
         end
     end).
Proof.
  intros Hne. unfold detect_pitch_from_chunk.
  destruct (Z.eqb_spec (Z.of_nat (List.length audio)) 0) as [H | _]; [| reflexivity].
  destruct audio; [contradiction | discriminate].
Qed.

(** The silence gate: a peak below the threshold ends the function. *)
Lemma autocorrelation_gate (audio : list Q) (peak : Q) :
  peak_amplitude audio = Ret peak -> (peak < AMPLITUDE_THRESHOLD)%Q ->
  autocorrelation audio = Ret None.
Proof.
  intros Hpeak Hlt. unfold autocorrelation.
  unfold peak_amplitude in Hpeak. rewrite Hpeak. unfold bind.
  destruct (Qlt_le_dec peak AMPLITUDE_THRESHOLD) as [_ | Hge]; [reflexivity |].
  exfalso. apply (Qlt_irrefl peak). eapply Qlt_le_trans; eauto.
Qed.

Lemma autocorrelation_returns (audio : list Q) :
  audio <> [] ->
  autocorrelation audio = Ret None
  \/ exists corr, autocorrelation audio = Ret (Some corr).
Proof.
  intros Hne. unfold autocorrelation.
  destruct (peak_amplitude_returns audio Hne) as (peak & Hpeak & _).
  unfold peak_amplitude in Hpeak. rewrite Hpeak. unfold bind.
  destruct (Qlt_le_dec peak AMPLITUDE_THRESHOLD); [now left |].
  right. eexists. reflexivity.
Qed.

Lemma np_sum_zero (a : list Q) : Forall (fun x => x == 0)%Q a -> (np_sum a == 0)%Q.
Proof.
  induction 1 as [| x a Hx _ IH]; simpl; [reflexivity |].
  rewrite Hx, IH. reflexivity.
Qed.

(** After DC removal a silent buffer is still silent. *)
Lemma silent_peak (audio : list Q) (peak : Q) :
  Forall (fun x => x == 0)%Q audio ->
  In peak (map Qabs (dc_removed audio)) -> (peak == 0)%Q.
Proof.
  intros Hzero Hin. unfold dc_removed in Hin. rewrite map_map in Hin.
  apply in_map_iff in Hin. destruct Hin as (x & <- & Hx).
  pose proof (np_sum_zero audio Hzero) as Hsum.
  rewrite Forall_forall in Hzero. specialize (Hzero x Hx).
  assert (Hmean : (np_mean audio == 0)%Q).
  { unfold np_mean. rewrite Hsum. unfold Qdiv. apply Qmult_0_l. }
  rewrite Hzero, Hmean. reflexivity.
Qed.

(** C8.  The detector returns [None] for the empty buffer, for every
    buffer whose peak absolute amplitude after DC removal is below
    [AMPLITUDE_THRESHOLD], and so for every buffer of silence. *)
Theorem detect_silence_gate :
  detect_pitch_from_chunk [] = Ret None
  /\ (forall (audio : list Q) (peak : Q),
        peak_amplitude audio = Ret peak -> (peak < AMPLITUDE_THRESHOLD)%Q ->
        detect_pitch_from_chunk audio = Ret None)
  /\ (forall audio : list Q,
        Forall (fun x => x == 0)%Q audio ->
        detect_pitch_from_chunk audio = Ret None).
Proof.
  assert (Hgate : forall (audio : list Q) (peak : Q),
             peak_amplitude audio = Ret peak -> (peak < AMPLITUDE_THRESHOLD)%Q ->
             detect_pitch_from_chunk audio = Ret None).
  { intros audio peak Hpeak Hlt.
    destruct audio as [| x audio]; [reflexivity |].
    rewrite detect_nonempty_unfold by discriminate.
    now rewrite (autocorrelation_gate _ peak Hpeak Hlt). }
  split; [reflexivity | split; [exact Hgate |]].
  intros audio Hzero.
  destruct audio as [| x audio]; [reflexivity |].
  destruct (peak_amplitude_returns (x :: audio)) as (peak & Hpeak & Hin);
    [discriminate |].
  apply (Hgate _ peak Hpeak).
  rewrite (silent_peak _ _ Hzero Hin). reflexivity.
Qed.

Lemma detect_silence_gate_witness :
  detect_pitch_from_chunk [(1 # 100)%Q; 0%Q; (-1 # 100)%Q] = Ret None
  /\ detect_pitch_from_chunk (repeat 0%Q 1024) = Ret None.
Proof.
  split.
  - apply (proj1 (proj2 detect_silence_gate) _ (30000 # 3000000)%Q);
      vm_compute; reflexivity.
  - apply (proj2 (proj2 detect_silence_gate)).
    apply Forall_forall. intros x Hx. apply repeat_spec in Hx. subst x. reflexivity.
Defined.

(** The detector at work: two clicks 45 samples apart give the lag 45,
    that is 44100 / 45 = 980 Hz. *)
Example detect_two_clicks :
  detect_pitch_from_chunk two_clicks = Ret (Some (44100 # 45)%Q).
Proof. vm_compute. reflexivity. Qed.

(** C9.  A buffer with fewer than 46 samples never yields a pitch: the
    half of the autocorrelation that is kept has the buffer's length, so
    the clamped [max_lag] is at most 44, which [min_lag = 44] does not
    stay below. *)
Theorem detect_short_buffer (audio : list Q) :
  (List.length audio < 46)%nat -> detect_pitch_from_chunk audio = Ret None.
Proof.
  intros Hshort. destruct audio as [| x audio]; [reflexivity |].
  rewrite detect_nonempty_unfold by discriminate.
  destruct (autocorrelation_returns (x :: audio)) as [-> | (corr & Hcorr)];
    [discriminate | reflexivity |].
  rewrite Hcorr. unfold bind at 1.
  apply autocorrelation_length in Hcorr; [| discriminate].
  rewrite best_lag_no_window; [reflexivity |].
  apply lag_window_short. lia.
Qed.

Lemma detect_short_buffer_witness :
  detect_pitch_from_chunk (map inject_Z (range 0 45)) = Ret None.
Proof.
  apply detect_short_buffer. vm_compute. lia.
Defined.

(** ** Debounce *)

Lemma label_eqb_eq (a b : Label) : label_eqb a b = true <-> a = b.
Proof.
  destruct a as [[s1 f1] pc1], b as [[s2 f2] pc2]. unfold label_eqb.
  rewrite !andb_true_iff, !Z.eqb_eq, String.eqb_eq. split.
  - intros [[-> ->] ->]. reflexivity.
  - intros H. inversion H. auto.
Qed.

Lemma label_eqb_refl (a : Label) : label_eqb a a = true.
Proof. now apply label_eqb_eq. Qed.

(** The test of line 167, as a proposition. *)
Lemma debounced_iff (st : LoopState) (label : Label) (now : Q) :
  debounced st label now = true <->
  last_event_label st = Some label
  /\ (now - last_event_time st < EVENT_DEBOUNCE_SECONDS)%Q.
Proof.
  unfold debounced. destruct (last_event_label st) as [last |].
  - rewrite andb_true_iff, label_eqb_eq.
    destruct (Qlt_le_dec (now - last_event_time st) EVENT_DEBOUNCE_SECONDS)
      as [Hlt | Hge].
    + split; [intros [-> _]; now split | intros [H _]; inversion H; now split].
    + split; [intros [_ H]; discriminate |].
      intros [_ Hlt]. exfalso. apply (Qlt_irrefl (now - last_event_time st)).
      eapply Qlt_le_trans; eauto.
  - split; [discriminate | intros [H _]; discriminate].
Qed.

Lemma debounce_step_suppressed (st : LoopState) (label : Label) (now : Q) :
  debounce_step st label now = None <->
  last_event_label st = Some label
  /\ (now - last_event_time st < EVENT_DEBOUNCE_SECONDS)%Q.
Proof.
  rewrite <- debounced_iff. unfold debounce_step.
  destruct (debounced st label now); split; congruence.
Qed.

Lemma debounce_step_accepted (st : LoopState) (label : Label) (now : Q) :
  ~ (last_event_label st = Some label
     /\ (now - last_event_time st < EVENT_DEBOUNCE_SECONDS)%Q) ->
  debounce_step st label now = Some (mkLoopState (target st) (Some label) now).
Proof.
  intros H. unfold debounce_step.
  destruct (debounced st label now) eqn:E; [| reflexivity].
  apply debounced_iff in E. contradiction.
Qed.

(** A suppressed label leaves one pass of the loop without any effect:
    same state, no verdict, no draw. *)
Lemma loop_iteration_suppressed
  (st : LoopState) (chunk : list Q) (now : Q) (r1 r2 : nat)
  (freq : Q) (e : FretPosition) :
  detect_pitch_from_chunk chunk = Ret (Some freq) ->
  nearest_fret_from_freq (Some (Q2R freq)) = Some e ->
  debounce_step st (fp_string e, fp_fret e, pitch_class_name (fp_midi e)) now = None ->
  loop_iteration st chunk now r1 r2 = Ret (st, Suppressed).
Proof.
  intros Hd Hn Hs. unfold loop_iteration. rewrite Hd. unfold bind at 1.
  rewrite Hn. destruct e as [[[s fret] midi] name].
  cbn [fp_string fp_fret fp_midi] in Hs. now rewrite Hs.
Qed.

(** An accepted label is recorded and then judged. *)
Lemma loop_iteration_accepted
  (st st' : LoopState) (chunk : list Q) (now : Q) (r1 r2 : nat)
  (freq : Q) (e : FretPosition) :
  let label := (fp_string e, fp_fret e, pitch_class_name (fp_midi e)) in
  detect_pitch_from_chunk chunk = Ret (Some freq) ->
  nearest_fret_from_freq (Some (Q2R freq)) = Some e ->
  debounce_step st label now = Some st' ->
  loop_iteration st chunk now r1 r2
  = ('(st'', v, _) <- decide_step st' label r1 r2 ;; Ret (st'', Heard label v)).
Proof.
  intros label Hd Hn Hs. unfold loop_iteration. rewrite Hd. unfold bind at 1.
  rewrite Hn. destruct e as [[[s fret] midi] name].
  unfold label in *. cbn [fp_string fp_fret fp_midi] in *. now rewrite Hs.
Qed.

(** C3.  The debounce step suppresses an incoming label exactly when it
    equals the last accepted label and less than
    [EVENT_DEBOUNCE_SECONDS] (0.4 s) have passed since that label was
    accepted; a suppressed label changes nothing in the loop; otherwise
    the label is accepted and becomes the last event, with its clock
    value.  So from the start of [main] the same label fed twice within
    the window is accepted once, and fed again after the window it is
    accepted a second time. *)
Theorem debounce_rule (st : LoopState) (label : Label) (now : Q) :
  EVENT_DEBOUNCE_SECONDS == 4 # 10
  /\ (debounce_step st label now = None <->
      last_event_label st = Some label
      /\ (now - last_event_time st < EVENT_DEBOUNCE_SECONDS)%Q)
  /\ (debounce_step st label now = None ->
      forall chunk r1 r2 freq e,
        detect_pitch_from_chunk chunk = Ret (Some freq) ->
        nearest_fret_from_freq (Some (Q2R freq)) = Some e ->
        label = (fp_string e, fp_fret e, pitch_class_name (fp_midi e)) ->
        loop_iteration st chunk now r1 r2 = Ret (st, Suppressed))
  /\ (debounce_step st label now <> None ->
      debounce_step st label now
      = Some (mkLoopState (target st) (Some label) now))
  /\ (forall (t : Target) (t1 t2 : Q),
        (t2 - t1 < EVENT_DEBOUNCE_SECONDS)%Q ->
        accepted_events (initial_state t) [(label, t1); (label, t2)]
        = [(label, t1)])
  /\ (forall (t : Target) (t1 t2 t3 : Q),
        (t2 - t1 < EVENT_DEBOUNCE_SECONDS)%Q ->
        (EVENT_DEBOUNCE_SECONDS <= t3 - t1)%Q ->
        accepted_events (initial_state t) [(label, t1); (label, t2); (label, t3)]
        = [(label, t1); (label, t3)]).
Proof.
  split; [reflexivity |].
  split; [apply debounce_step_suppressed |].
  split.
  { intros Hs chunk r1 r2 freq e Hd Hn ->.
    now apply (loop_iteration_suppressed st chunk now r1 r2 freq e). }
  split.
  { intros Hne. apply debounce_step_accepted. intros H.
    apply Hne. now apply debounce_step_suppressed. }
  assert (Hfirst : forall t t1,
             debounce_step (initial_state t) label t1
             = Some (mkLoopState t (Some label) t1)).
  { intros t t1. apply debounce_step_accepted. simpl. intros [H _]. discriminate. }
  assert (Hsecond : forall t t1 t2,
             (t2 - t1 < EVENT_DEBOUNCE_SECONDS)%Q ->
             debounce_step (mkLoopState t (Some label) t1) label t2 = None).
  { intros t t1 t2 H. apply debounce_step_suppressed. simpl. now split. }
  split.
  - intros t t1 t2 H. cbn [accepted_events]. rewrite Hfirst.
    cbn [accepted_events]. now rewrite Hsecond.
  - intros t t1 t2 t3 H12 H13. cbn [accepted_events]. rewrite Hfirst.
    cbn [accepted_events]. rewrite Hsecond by assumption.
    rewrite debounce_step_accepted; [reflexivity |].
    simpl. intros [_ Hlt]. apply (Qlt_irrefl (t3 - t1)).
    eapply Qlt_le_trans; eauto.
Qed.

Lemma debounce_rule_witness :
  accepted_events (initial_state (6, 40, "E"%string, 0, "E2"%string))
    [((6, 0, "E"%string), (10 # 1)%Q); ((6, 0, "E"%string), (102 # 10)%Q);
     ((6, 0, "E"%string), (104 # 10)%Q)]
  = [((6, 0, "E"%string), (10 # 1)%Q); ((6, 0, "E"%string), (104 # 10)%Q)].
Proof.
  apply (proj2 (proj2 (proj2 (proj2 (proj2
           (debounce_rule (initial_state (6, 40, "E"%string, 0, "E2"%string))
                          (6, 0, "E"%string) 0%Q)))))
           (6, 40, "E"%string, 0, "E2"%string)
           (10 # 1)%Q (102 # 10)%Q (104 # 10)%Q).
  - vm_compute. reflexivity.
  - vm_compute. discriminate.
Defined.

(** ** The decision on an accepted event *)

(** C4.  For an accepted event, the target is replaced by a freshly drawn
    random target exactly when both the event's pitch class and its
    string equal the target's: then the verdict is "correct", the inner
    loop is left and the new target is the generator's draw.  In the two
    other cases (pitch class only, or no match) the state, and with it
    the target, is unchanged and the loop goes on listening. *)
Theorem decide_replaces_target_iff (st : LoopState) (label : Label) (r1 r2 : nat) :
  let '(det_string, _, det_pc) := label in
  let both := det_pc = target_pc (target st)
              /\ det_string = target_string (target st) in
  (both ->
   exists t, random_target_string_and_note r1 r2 = Ret t
             /\ decide_step st label r1 r2
                = Ret (mkLoopState t (last_event_label st) (last_event_time st),
                       Correct, true))
  /\ (~ both ->
      exists v, decide_step st label r1 r2 = Ret (st, v, false)
                /\ (det_pc = target_pc (target st) -> v = RightNoteWrongString)
                /\ (det_pc <> target_pc (target st) -> v = DifferentNote)).
Proof.
  destruct label as [[det_string det_fret] det_pc]. cbv zeta. split.
  - intros [Hpc Hstr]. unfold decide_step.
    apply String.eqb_eq in Hpc. apply Z.eqb_eq in Hstr. rewrite Hpc, Hstr.
    cbn [andb].
    destruct (random_target_returns r1 r2) as (s & e & _ & _ & _ & Hret).
    rewrite Hret. eexists. split; reflexivity.
  - intros Hnot. unfold decide_step.
    destruct (String.eqb_spec det_pc (target_pc (target st))) as [Hpc | Hpc].
    + destruct (Z.eqb_spec det_string (target_string (target st))) as [Hstr | Hstr].
      * exfalso. apply Hnot. now split.
      * cbn [andb]. exists RightNoteWrongString.
        split; [reflexivity | split; [reflexivity | contradiction]].
    + cbn [andb]. exists DifferentNote.
      split; [reflexivity | split; [contradiction | reflexivity]].
Qed.

Lemma decide_replaces_target_iff_witness :
  exists v,
    decide_step (mkLoopState (6, 40, "E"%string, 0, "E2"%string)
                             (Some (5, 7, "E"%string)) (10 # 1)%Q)
                (5, 7, "E"%string) 3 4
    = Ret (mkLoopState (6, 40, "E"%string, 0, "E2"%string)
                       (Some (5, 7, "E"%string)) (10 # 1)%Q, v, false)
    /\ ("E"%string = "E"%string -> v = RightNoteWrongString)
    /\ ("E"%string <> "E"%string -> v = DifferentNote).
Proof.
  apply (proj2 (decide_replaces_target_iff
                  (mkLoopState (6, 40, "E"%string, 0, "E2"%string)
                               (Some (5, 7, "E"%string)) (10 # 1)%Q)
                  (5, 7, "E"%string) 3 4)).
  simpl. intros [_ H]. discriminate.
Defined.

(** The two end-to-end decisions of the specification, target
    "STRING 6 - E". *)
Example decide_correct :
  decide_step (mkLoopState (6, 40, "E"%string, 0, "E2"%string)
                           (Some (6, 0, "E"%string)) (10 # 1)%Q)
              (6, 0, "E"%string) 7 29
  = Ret (mkLoopState (5, 48, "C"%string, 3, "C3"%string)
                     (Some (6, 0, "E"%string)) (10 # 1)%Q, Correct, true).
Proof. reflexivity. Qed.

Example decide_wrong_string :
  decide_step (mkLoopState (6, 40, "E"%string, 0, "E2"%string)
                           (Some (5, 7, "E"%string)) (10 # 1)%Q)
              (5, 7, "E"%string) 7 29
  = Ret (mkLoopState (6, 40, "E"%string, 0, "E2"%string)
                     (Some (5, 7, "E"%string)) (10 # 1)%Q,
         RightNoteWrongString, false).
Proof. reflexivity. Qed.

(** * Further properties *)

(** ** Note names *)

(** The decimal print of an integer starts with a digit or a minus
    sign, never with the sharp sign of a note name. *)
Lemma str_of_int_no_sharp (z : Z) (s : string) :
  str_of_int z <> ("#" ++ s)%string.
Proof.
  unfold str_of_int, Z.to_int, NilZero.string_of_int, NilZero.string_of_uint.
  destruct z as [| p | p]; simpl.
  - discriminate.
  - destruct (Pos.to_uint p); simpl; discriminate.
  - discriminate.
Qed.

(** The decimal print determines the integer. *)
Lemma str_of_int_injective (z1 z2 : Z) : str_of_int z1 = str_of_int z2 -> z1 = z2.
Proof.
  unfold str_of_int. intros H.
  assert (Hn : forall z, Z.to_int z <> Decimal.Pos Decimal.Nil
                         /\ Z.to_int z <> Decimal.Neg Decimal.Nil).
  { intros [| p | p]; unfold Z.to_int; split; try discriminate;
      intros E; injection E as E;
      exact (Stdlib.Numbers.DecimalPos.Unsigned.to_uint_nonnil p E). }
  pose proof (NilZero.isi (Z.to_int z1) (proj1 (Hn z1)) (proj2 (Hn z1))) as H1.
  pose proof (NilZero.isi (Z.to_int z2) (proj1 (Hn z2)) (proj2 (Hn z2))) as H2.
  rewrite H, H2 in H1. injection H1 as H1.
  rewrite <- (Stdlib.Numbers.DecimalZ.of_to z1), <- (Stdlib.Numbers.DecimalZ.of_to z2).
  now rewrite H1.
Qed.

(** A note name followed by a text that does not start with a sharp
    sign splits in one way only. *)
Lemma note_at_append_inj (i j : Z) (a b : string) :
  0 <= i < 12 -> 0 <= j < 12 ->
  (forall s, a <> ("#" ++ s)%string) -> (forall s, b <> ("#" ++ s)%string) ->
  (note_at i ++ a)%string = (note_at j ++ b)%string -> i = j /\ a = b.
Proof.
  intros Hi Hj Ha Hb H.
  assert (Ci : i = 0 \/ i = 1 \/ i = 2 \/ i = 3 \/ i = 4 \/ i = 5 \/ i = 6
               \/ i = 7 \/ i = 8 \/ i = 9 \/ i = 10 \/ i = 11) by lia.
  assert (Cj : j = 0 \/ j = 1 \/ j = 2 \/ j = 3 \/ j = 4 \/ j = 5 \/ j = 6
               \/ j = 7 \/ j = 8 \/ j = 9 \/ j = 10 \/ j = 11) by lia.
  clear Hi Hj.
  destruct Ci as [-> | [-> | [-> | [-> | [-> | [-> | [-> | [-> | [-> | [-> | [-> | ->]]]]]]]]]]];
    destruct Cj as [-> | [-> | [-> | [-> | [-> | [-> | [-> | [-> | [-> | [-> | [-> | ->]]]]]]]]]]];
    vm_compute in H;
    try discriminate H;
    injection H as H;
    try (exfalso; exact (Ha _ H));
    try (exfalso; exact (Hb _ (eq_sym H)));
    try discriminate H;
    (split; [reflexivity | first [exact H | injection H as H; exact H]]).
Qed.

Lemma note_at_injective (i j : Z) :
  0 <= i < 12 -> 0 <= j < 12 -> note_at i = note_at j -> i = j.
Proof.
  intros Hi Hj H.
  apply (note_at_append_inj i j "0" "0" Hi Hj); try (intros s; discriminate).
  now rewrite H.
Qed.

Lemma pitch_class_name_mod (m n : Z) :
  pitch_class_name m = pitch_class_name n <-> m mod 12 = n mod 12.
Proof.
  unfold pitch_class_name. split; [| now intros ->].
  apply note_at_injective; apply Z.mod_pos_bound; lia.
Qed.

(** X1.  [pitch_class_name] never leaves the table of the twelve names,
    also for negative numbers, and two MIDI numbers get the same
    pitch-class name exactly when they are congruent modulo 12. *)
Theorem pitch_class_name_congruent (m n : Z) :
  In (pitch_class_name m) NOTE_NAMES
  /\ (pitch_class_name m = pitch_class_name n <-> m mod 12 = n mod 12).
Proof.
  split; [| apply pitch_class_name_mod].
  unfold pitch_class_name. eapply nth_error_In. apply note_at_nth_error.
Qed.

(** X2.  The full note name determines the MIDI number: two MIDI
    numbers are printed alike by [midi_to_note_name] only when they are
    equal, whatever their sign. *)
Theorem midi_to_note_name_injective (m n : Z) :
  midi_to_note_name m = midi_to_note_name n <-> m = n.
Proof.
  split; [| now intros ->].
  unfold midi_to_note_name. cbv zeta. intros H.
  apply note_at_append_inj in H;
    try (apply Z.mod_pos_bound; lia); try (intros s; apply str_of_int_no_sharp).
  destruct H as [Hmod Hoct]. apply str_of_int_injective in Hoct.
  rewrite (Z.div_mod m 12), (Z.div_mod n 12) by lia. lia.
Qed.

(** ** Entries of the fretboard *)

Lemma fretboard_entry (e : FretPosition) :
  In e FRETBOARD ->
  exists open_midi,
    In (fp_string e, open_midi) STRING_TUNING_MIDI
    /\ 0 <= fp_fret e <= MAX_FRET
    /\ fp_midi e = open_midi + fp_fret e
    /\ fp_name e = midi_to_note_name (fp_midi e).
Proof.
  intros Hin. unfold FRETBOARD in Hin. apply in_build_fretboard in Hin.
  destruct Hin as (s & o & fret & Hino & Hfret & ->).
  cbn [fp_string fp_fret fp_midi fp_name].
  exists o. split; [assumption | split; [assumption | split; reflexivity]].
Qed.

(** X3.  Nothing else is on the fretboard: every entry sits on a string
    of the tuning table at a fret in [0, MAX_FRET], its MIDI number is
    the string's open note plus the fret (so between 40 and 76), and its
    name is the name of that number. *)
Theorem fretboard_entry_sound (e : FretPosition) :
  In e FRETBOARD ->
  exists open_midi,
    lookup (fp_string e) STRING_TUNING_MIDI = Some open_midi
    /\ 0 <= fp_fret e <= MAX_FRET
    /\ fp_midi e = open_midi + fp_fret e
    /\ fp_name e = midi_to_note_name (fp_midi e)
    /\ 40 <= fp_midi e <= 76.
Proof.
  intros Hin. pose proof (fretboard_midi_bounds e Hin) as Hb.
  destruct (fretboard_entry e Hin) as (o & Hino & Hfret & Hmidi & Hname).
  exists o. split; [| split; [assumption | split; [assumption | split; assumption]]].
  apply In_lookup; [apply tuning_keys_NoDup | assumption].
Qed.

Lemma fretboard_entry_sound_witness :
  exists open_midi,
    lookup 6 STRING_TUNING_MIDI = Some open_midi
    /\ 0 <= 0 <= MAX_FRET
    /\ 40 = open_midi + 0
    /\ "E2"%string = midi_to_note_name 40
    /\ 40 <= 40 <= 76.
Proof.
  apply (fretboard_entry_sound (6, 0, 40, "E2"%string)).
  apply low_E_on_fretboard.
Defined.

(** Every MIDI number from 40 to 76 is on the fretboard. *)
Lemma fretboard_covers (n : Z) :
  40 <= n <= 76 -> exists e, In e FRETBOARD /\ fp_midi e = n.
Proof.
  intros Hn.
  assert (H : forallb (fun k => existsb (fun e => fp_midi e =? k) FRETBOARD)
                      (range 40 77) = true) by (vm_compute; reflexivity).
  assert (Hk : In n (range 40 77)) by (apply in_range; lia).
  pose proof (forallb_In _ _ _ H Hk) as Hb. cbv beta in Hb.
  apply existsb_exists in Hb. destruct Hb as (e & Hin & He).
  exists e. split; [assumption | now apply Z.eqb_eq].
Qed.

(** X4.  The MIDI numbers playable on the fretboard are exactly the
    numbers from 40 (open sixth string) to 76 (twelfth fret of the first
    string), without a gap. *)
Theorem fretboard_midi_range (n : Z) :
  (exists e, In e FRETBOARD /\ fp_midi e = n) <-> 40 <= n <= 76.
Proof.
  split.
  - intros (e & Hin & <-). now apply fretboard_midi_bounds.
  - apply fretboard_covers.
Qed.

Lemma same_string_offsets (e1 e2 : FretPosition) :
  In e1 FRETBOARD -> In e2 FRETBOARD -> fp_string e1 = fp_string e2 ->
  fp_midi e1 - fp_midi e2 = fp_fret e1 - fp_fret e2.
Proof.
  intros H1 H2 Hs.
  destruct (fretboard_entry e1 H1) as (o1 & Hi1 & _ & Hm1 & _).
  destruct (fretboard_entry e2 H2) as (o2 & Hi2 & _ & Hm2 & _).
  rewrite Hs in Hi1.
  apply (In_lookup _ _ _ tuning_keys_NoDup) in Hi1.
  apply (In_lookup _ _ _ tuning_keys_NoDup) in Hi2.
  assert (o1 = o2) by congruence. lia.
Qed.

(** X5.  On one string the MIDI number moves with the fret: two entries
    of the same string differ in MIDI number by exactly their difference
    in fret, so a higher fret is a higher note, and the same fret is the
    same entry. *)
Theorem fretboard_same_string (e1 e2 : FretPosition) :
  In e1 FRETBOARD -> In e2 FRETBOARD -> fp_string e1 = fp_string e2 ->
  fp_midi e1 - fp_midi e2 = fp_fret e1 - fp_fret e2
  /\ (fp_fret e1 < fp_fret e2 <-> fp_midi e1 < fp_midi e2)
  /\ (fp_fret e1 = fp_fret e2 -> e1 = e2).
Proof.
  intros H1 H2 Hs.
  pose proof (same_string_offsets e1 e2 H1 H2 Hs) as Hoff.
  split; [assumption | split; [lia |]].
  intros Hf.
  destruct (fretboard_entry e1 H1) as (_ & _ & _ & _ & Hn1).
  destruct (fretboard_entry e2 H2) as (_ & _ & _ & _ & Hn2).
  destruct e1 as [[[s1 f1] m1] n1], e2 as [[[s2 f2] m2] n2].
  cbn [fp_string fp_fret fp_midi fp_name] in *.
  assert (m1 = m2) by lia. congruence.
Qed.

Lemma high_E_on_fretboard : In (1, 12, 76, "E5"%string) FRETBOARD.
Proof.
  unfold FRETBOARD. apply in_build_fretboard. exists 1, 64, 12.
  split; [simpl; tauto | split; [unfold MAX_FRET; lia | reflexivity]].
Qed.

Lemma low_E_octave_on_fretboard : In (6, 12, 52, "E3"%string) FRETBOARD.
Proof.
  unfold FRETBOARD. apply in_build_fretboard. exists 6, 40, 12.
  split; [now left | split; [unfold MAX_FRET; lia | reflexivity]].
Qed.

Lemma fretboard_same_string_witness :
  40 - 52 = 0 - 12
  /\ (0 < 12 <-> 40 < 52)
  /\ (0 = 12 -> (6, 0, 40, "E2"%string) = (6, 12, 52, "E3"%string)).
Proof.
  apply (fretboard_same_string (6, 0, 40, "E2"%string) (6, 12, 52, "E3"%string)).
  - apply low_E_on_fretboard.
  - apply low_E_octave_on_fretboard.
  - reflexivity.
Defined.

(** ** Where the scan lands *)

(** A real between two integers has an integer of that range within
    one half. *)
Lemma nearest_integer (x : R) (lo hi : Z) :
  (IZR lo <= x <= IZR hi)%R ->
  exists n, lo <= n <= hi /\ (Rabs (x - IZR n) <= 1 / 2)%R.
Proof.
  intros [Hlo Hhi].
  destruct (archimed x) as [Hup1 Hup2].
  set (k := up x - 1).
  assert (Hk : IZR k = (IZR (up x) - 1)%R) by (unfold k; now rewrite minus_IZR).
  assert (Hk1 : IZR (k + 1) = (IZR k + 1)%R) by now rewrite plus_IZR.
  assert (Hlok : lo <= k).
  { assert (lo < k + 1); [| lia]. apply lt_IZR. lra. }
  assert (Hkhi : k <= hi) by (apply le_IZR; lra).
  destruct (Rle_dec (x - IZR k) (1 / 2)) as [Hnear | Hfar].
  - exists k. split; [lia |]. apply Rabs_le. lra.
  - exists (k + 1). split.
    + assert (k < hi); [| lia]. apply lt_IZR. lra.
    + apply Rabs_le. lra.
Qed.

Lemma scan_member (l : list FretPosition) (midi_est : R) (e : FretPosition) :
  nearest_scan l midi_est = Some e ->
  In e l /\ forall x, In x l -> (midi_distance midi_est e <= midi_distance midi_est x)%R.
Proof.
  intros H. apply nearest_scan_some in H.
  destruct H as (pre & post & -> & _ & Hpre & Hpost). split.
  - apply in_or_app. right. now left.
  - intros x Hx. apply in_app_or in Hx. destruct Hx as [Hx | [<- | Hx]].
    + apply Rlt_le. now apply Hpre.
    + apply Rle_refl.
    + now apply Hpost.
Qed.

(** X8.  For an estimate inside the range of the fretboard (MIDI 40 to
    76) the scan returns an entry of the fretboard at most half a
    semitone away from the estimate. *)
Theorem nearest_fret_within_half (freq : option R) (midi_est : R) :
  freq_to_midi freq = Some midi_est -> (40 <= midi_est <= 76)%R ->
  exists e,
    nearest_fret_from_freq freq = Some e
    /\ In e FRETBOARD
    /\ (midi_distance midi_est e <= 1 / 2)%R.
Proof.
  intros Hmidi Hrange. unfold nearest_fret_from_freq. rewrite Hmidi.
  destruct (nearest_integer midi_est 40 76 Hrange) as (n & Hn & Hnear).
  destruct (fretboard_covers n Hn) as (x & Hx & Hxn).
  assert (Hdx : (midi_distance midi_est x <= 1 / 2)%R)
    by (unfold midi_distance; now rewrite Hxn).
  destruct (proj2 (nearest_scan_returns midi_est)) as (e & He).
  { exists x. split; [assumption | lra]. }
  exists e. split; [assumption |].
  destruct (scan_member _ _ _ He) as [Hin Hmin].
  split; [assumption |]. specialize (Hmin x Hx). lra.
Qed.

Lemma nearest_fret_within_half_witness :
  exists e,
    nearest_fret_from_freq (Some 440%R) = Some e
    /\ In e FRETBOARD
    /\ (midi_distance 69 e <= 1 / 2)%R.
Proof.
  apply (nearest_fret_within_half (Some 440%R) 69%R).
  - exact freq_to_midi_440.
  - lra.
Defined.

Lemma midi_distance_above (midi_est : R) (x : FretPosition) :
  (midi_est <= IZR (fp_midi x))%R ->
  midi_distance midi_est x = (IZR (fp_midi x) - midi_est)%R.
Proof.
  intros H. unfold midi_distance. rewrite Rabs_left1 by lra. ring.
Qed.

Lemma midi_distance_below (midi_est : R) (x : FretPosition) :
  (IZR (fp_midi x) <= midi_est)%R ->
  midi_distance midi_est x = (midi_est - IZR (fp_midi x))%R.
Proof.
  intros H. unfold midi_distance. apply Rabs_right. lra.
Qed.

Lemma fretboard_midi_bounds_R (x : FretPosition) :
  In x FRETBOARD -> (40 <= IZR (fp_midi x) <= 76)%R.
Proof.
  intros Hx. apply fretboard_midi_bounds in Hx.
  split; apply IZR_le; lia.
Qed.

Lemma scan_below_range (midi_est : R) :
  (-959 < midi_est <= 40)%R ->
  nearest_scan FRETBOARD midi_est = Some (6, 0, 40, "E2"%string).
Proof.
  intros Hest.
  remember (skipn 1 FRETBOARD) as rest eqn:Hrest.
  assert (Hfb : FRETBOARD = [] ++ (6, 0, 40, "E2"%string) :: rest)
    by (subst rest; vm_compute; reflexivity).
  assert (Hin : forall x, In x rest -> In x FRETBOARD)
    by (intros x Hx; rewrite Hfb; now right).
  rewrite Hfb. apply nearest_scan_first_min.
  - rewrite midi_distance_above by (simpl; lra). simpl. lra.
  - intros x [].
  - intros x Hx. apply Hin, fretboard_midi_bounds_R in Hx.
    rewrite !midi_distance_above by (simpl; lra). simpl. lra.
Qed.

Lemma scan_above_range (midi_est : R) :
  (76 <= midi_est < 1075)%R ->
  nearest_scan FRETBOARD midi_est = Some (1, 12, 76, "E5"%string).
Proof.
  intros Hest.
  remember (firstn 77 FRETBOARD) as before eqn:Hbefore.
  assert (Hfb : FRETBOARD = before ++ (1, 12, 76, "E5"%string) :: [])
    by (subst before; vm_compute; reflexivity).
  assert (Hlow : forallb (fun x => fp_midi x <? 76) before = true)
    by (subst before; vm_compute; reflexivity).
  rewrite Hfb. apply nearest_scan_first_min.
  - rewrite midi_distance_below by (simpl; lra). simpl. lra.
  - intros x Hx. pose proof (forallb_In _ _ _ Hlow Hx) as Hlt. cbv beta in Hlt.
    apply Z.ltb_lt, IZR_lt in Hlt.
    rewrite !midi_distance_below by (simpl; lra). simpl. lra.
  - intros x [].
Qed.

(** X9.  Below the fretboard the scan clamps to its lowest note: every
    estimate at or below 40 (and above -959) is mapped to the open sixth
    string, E2. *)
Theorem nearest_fret_below_range (freq : option R) (midi_est : R) :
  freq_to_midi freq = Some midi_est -> (-959 < midi_est <= 40)%R ->
  nearest_fret_from_freq freq = Some (6, 0, 40, "E2"%string).
Proof.
  intros Hmidi Hest. unfold nearest_fret_from_freq. rewrite Hmidi.
  now apply scan_below_range.
Qed.

Lemma freq_to_midi_55 : freq_to_midi (Some 55%R) = Some 33%R.
Proof.
  rewrite freq_to_midi_positive by lra. f_equal.
  replace (55 / 440)%R with (/ 2 ^ 3)%R by (simpl; field).
  rewrite log2_inv_pow. simpl. ring.
Qed.

Lemma nearest_fret_below_range_witness :
  nearest_fret_from_freq (Some 55%R) = Some (6, 0, 40, "E2"%string).
Proof.
  apply (nearest_fret_below_range (Some 55%R) 33%R).
  - exact freq_to_midi_55.
  - lra.
Defined.

(** X10.  Above the fretboard the scan clamps to its highest note: every
    estimate at or above 76 (and below 1075) is mapped to the twelfth
    fret of the first string, E5. *)
Theorem nearest_fret_above_range (freq : option R) (midi_est : R) :
  freq_to_midi freq = Some midi_est -> (76 <= midi_est < 1075)%R ->
  nearest_fret_from_freq freq = Some (1, 12, 76, "E5"%string).
Proof.
  intros Hmidi Hest. unfold nearest_fret_from_freq. rewrite Hmidi.
  now apply scan_above_range.
Qed.

Lemma nearest_fret_above_range_witness :
  nearest_fret_from_freq (Some 880%R) = Some (1, 12, 76, "E5"%string).
Proof.
  apply (nearest_fret_above_range (Some 880%R) 81%R).
  - exact freq_to_midi_880.
  - lra.
Defined.

Lemma freq_to_midi_far : freq_to_midi (Some (440 * 2 ^ 100)%R) = Some 1269%R.
Proof.
  assert (Hpos : (0 < 2 ^ 100)%R) by (apply pow_lt; lra).
  rewrite freq_to_midi_positive by lra. f_equal.
  replace (440 * 2 ^ 100 / 440)%R with (2 ^ 100)%R by (field; lra).
  rewrite log2_pow, INR_IZR_INZ. simpl Z.of_nat. lra.
Qed.

(** X11.  Where the scan gives up.  For an estimate that is a number,
    [nearest_fret_from_freq] returns [None] exactly when the estimate is
    999 semitones or more away from the whole fretboard, that is at or
    below -959 or at or above 1075 (the initial [best_dist = 999.0]).
    An estimate that is not a number is no real and is not covered. *)
Theorem nearest_fret_none_iff (freq : option R) (midi_est : R) :
  freq_to_midi freq = Some midi_est ->
  (nearest_fret_from_freq freq = None
   <-> (midi_est <= -959 \/ 1075 <= midi_est)%R).
Proof.
  intros Hmidi. unfold nearest_fret_from_freq. rewrite Hmidi.
  rewrite nearest_scan_none. split.
  - intros Hall.
    pose proof (Hall _ low_E_on_fretboard) as Hlo.
    pose proof (Hall _ high_E_on_fretboard) as Hhi.
    unfold midi_distance in Hlo, Hhi. simpl in Hlo, Hhi.
    unfold Rabs in Hlo, Hhi.
    destruct (Rcase_abs (midi_est - 40)); destruct (Rcase_abs (midi_est - 76)); lra.
  - intros Hfar x Hx.
    apply fretboard_midi_bounds_R in Hx. destruct Hfar as [Hfar | Hfar].
    + rewrite midi_distance_above by lra. lra.
    + rewrite midi_distance_below by lra. lra.
Qed.

Lemma nearest_fret_none_iff_witness :
  nearest_fret_from_freq (Some (440 * 2 ^ 100)%R) = None
  <-> (1269 <= -959 \/ 1075 <= 1269)%R.
Proof.
  apply (nearest_fret_none_iff (Some (440 * 2 ^ 100)%R) 1269%R).
  exact freq_to_midi_far.
Defined.

(** ** What the detector returns *)

(** The detector's paths: every early return is [None]; the one path
    that returns a frequency divides the sample rate by a lag of the
    window other than 44. *)
Lemma detect_outcome (audio : list Q) :
  detect_pitch_from_chunk audio = Ret None
  \/ exists lag,
       45 <= lag <= 629 /\ lag + 2 <= Z.of_nat (List.length audio)
       /\ detect_pitch_from_chunk audio
          = Ret (Some (inject_Z SAMPLE_RATE / inject_Z lag)%Q).
Proof.
  destruct audio as [| x audio]; [left; reflexivity |].
  assert (Hne : x :: audio <> []) by discriminate.
  pose proof (detect_nonempty_unfold (x :: audio) Hne) as Hd.
  destruct (autocorrelation_returns (x :: audio) Hne) as [Hc | (corr & Hcorr)].
  { left. now rewrite Hd, Hc. }
  rewrite Hcorr in Hd. unfold bind at 1 in Hd.
  pose proof (autocorrelation_length _ _ Hne Hcorr) as Hlen.
  destruct (lag_window_cases (Z.of_nat (List.length corr))) as [[_ Hn] | [Hlt Hs]].
  - rewrite (best_lag_no_window _ Hn) in Hd. left. exact Hd.
  - destruct (best_lag_in_window corr _ _ Hs) as (lag & Hbest & Hlag).
    rewrite Hbest in Hd. unfold bind in Hd. cbv zeta in Hd.
    rewrite min_lag_value, max_lag_unclamped_value in Hlag.
    destruct (Qlt_le_dec (inject_Z SAMPLE_RATE / inject_Z lag) MIN_F0);
      [left; exact Hd |].
    destruct (Qlt_le_dec MAX_F0 (inject_Z SAMPLE_RATE / inject_Z lag)) as [| Hle];
      [left; exact Hd |].
    right. exists lag. split; [| split; [| exact Hd]].
    + assert (lag <> 44); [| lia].
      intros ->. vm_compute in Hle. apply Hle. reflexivity.
    + rewrite Hlen in Hlag. simpl List.length in *. lia.
Qed.

Lemma lag_frequency_bounds (lag : Z) :
  45 <= lag <= 629 ->
  (MIN_F0 <= inject_Z SAMPLE_RATE / inject_Z lag)%Q
  /\ (inject_Z SAMPLE_RATE / inject_Z lag <= 980 # 1)%Q.
Proof.
  intros Hlag. destruct lag as [| p | p]; try lia.
  unfold Qle, Qdiv, Qmult, Qinv, inject_Z, MIN_F0, SAMPLE_RATE.
  cbn [Qnum Qden]. split; lia.
Qed.

(** X12.  The detector never raises: for every buffer, empty ones and
    constant ones included, it returns [None] or a frequency. *)
Theorem detect_never_raises (audio : list Q) :
  exists result, detect_pitch_from_chunk audio = Ret result.
Proof.
  destruct (detect_outcome audio) as [-> | (lag & _ & _ & ->)]; eexists; reflexivity.
Qed.

(** X13.  A returned frequency is the sample rate divided by an integer
    lag between 45 and 629 that leaves at least two samples of the
    buffer beyond it; so it lies between [MIN_F0] and 980 Hz (the lag 44,
    1002 Hz, is rejected by the upper bound [MAX_F0]). *)
Theorem detect_frequency_form (audio : list Q) (freq : Q) :
  detect_pitch_from_chunk audio = Ret (Some freq) ->
  exists lag,
    45 <= lag <= 629
    /\ lag + 2 <= Z.of_nat (List.length audio)
    /\ freq = (inject_Z SAMPLE_RATE / inject_Z lag)%Q
    /\ (MIN_F0 <= freq)%Q /\ (freq <= 980 # 1)%Q.
Proof.
  intros H. destruct (detect_outcome audio) as [Hn | (lag & Hlag & Hlen & Hd)].
  - rewrite Hn in H. discriminate.
  - rewrite Hd in H. inversion H; subst freq.
    exists lag. split; [assumption | split; [assumption | split; [reflexivity |]]].
    now apply lag_frequency_bounds.
Qed.

Lemma detect_frequency_form_witness :
  exists lag,
    45 <= lag <= 629
    /\ lag + 2 <= Z.of_nat (List.length two_clicks)
    /\ (44100 # 45)%Q = (inject_Z SAMPLE_RATE / inject_Z lag)%Q
    /\ (MIN_F0 <= 44100 # 45)%Q /\ (44100 # 45 <= 980 # 1)%Q.
Proof.
  apply (detect_frequency_form two_clicks (44100 # 45)%Q).
  vm_compute. reflexivity.
Defined.

Lemma detect_under_47 (audio : list Q) :
  (List.length audio < 47)%nat -> detect_pitch_from_chunk audio = Ret None.
Proof.
  intros Hshort. destruct (detect_outcome audio) as [H | (lag & Hlag & Hlen & _)];
    [assumption | lia].
Qed.

(** X14.  A pitch needs at least 47 samples: every shorter buffer gives
    [None], whatever it holds, and 47 samples can be enough (two clicks
    45 samples apart are heard as 44100 / 45 = 980 Hz). *)
Theorem detect_needs_47_samples :
  (forall audio : list Q,
      (List.length audio < 47)%nat -> detect_pitch_from_chunk audio = Ret None)
  /\ List.length two_clicks_47 = 47%nat
  /\ detect_pitch_from_chunk two_clicks_47 = Ret (Some (44100 # 45)%Q).
Proof.
  split; [exact detect_under_47 | split; vm_compute; reflexivity].
Qed.

Lemma detect_needs_47_samples_witness :
  detect_pitch_from_chunk (firstn 46 two_clicks_47) = Ret None.
Proof.
  apply (proj1 detect_needs_47_samples). vm_compute. lia.
Defined.

(** ** One pass of the loop *)

Lemma Q2R_MIN_F0 : Q2R MIN_F0 = 70%R.
Proof. unfold Q2R, MIN_F0. simpl. lra. Qed.

Lemma Q2R_980 : Q2R (980 # 1) = 980%R.
Proof. unfold Q2R. simpl. lra. Qed.

(** A detected frequency always finds its entry. *)
Lemma detected_frequency_mapped (audio : list Q) (freq : Q) :
  detect_pitch_from_chunk audio = Ret (Some freq) ->
  exists e, nearest_fret_from_freq (Some (Q2R freq)) = Some e /\ In e FRETBOARD.
Proof.
  intros H. destruct (detect_outcome audio) as [Hn | (lag & Hlag & _ & Hd)];
    [rewrite Hn in H; discriminate |].
  rewrite Hd in H. inversion H; subst freq.
  destruct (lag_frequency_bounds lag Hlag) as [Hlo Hhi].
  apply Qle_Rle in Hlo, Hhi. rewrite Q2R_MIN_F0 in Hlo. rewrite Q2R_980 in Hhi.
  destruct (nearest_fret_in_band (Q2R (inject_Z SAMPLE_RATE / inject_Z lag)))
    as (e & He); [lra |].
  exists e. split; [assumption |].
  unfold nearest_fret_from_freq in He.
  destruct (freq_to_midi (Some (Q2R (inject_Z SAMPLE_RATE / inject_Z lag))))
    as [est |]; [| discriminate].
  now apply scan_member in He.
Qed.

(** The decision never raises, keeps the last event, and changes the
    target only with the verdict [Correct]. *)
Lemma decide_step_returns (st : LoopState) (label : Label) (r1 r2 : nat) :
  exists st' v b,
    decide_step st label r1 r2 = Ret (st', v, b)
    /\ last_event_label st' = last_event_label st
    /\ last_event_time st' = last_event_time st
    /\ (v <> Correct -> st' = st)
    /\ (v = Correct -> random_target_string_and_note r1 r2 = Ret (target st')).
Proof.
  destruct label as [[det_string det_fret] det_pc]. unfold decide_step.
  destruct (String.eqb det_pc (target_pc (target st))) eqn:Epc;
    destruct (det_string =? target_string (target st)) eqn:Estr; cbn [andb].
  - destruct (random_target_returns r1 r2) as (s & e & _ & _ & _ & Hret).
    rewrite Hret. unfold bind.
    eexists _, Correct, true. split; [reflexivity |].
    cbn [last_event_label last_event_time target].
    split; [reflexivity | split; [reflexivity | split; [congruence | reflexivity]]].
  - exists st, RightNoteWrongString, false.
    split; [reflexivity | split; [reflexivity | split; [reflexivity |]]].
    split; [reflexivity | discriminate].
  - exists st, DifferentNote, false.
    split; [reflexivity | split; [reflexivity | split; [reflexivity |]]].
    split; [reflexivity | discriminate].
  - exists st, DifferentNote, false.
    split; [reflexivity | split; [reflexivity | split; [reflexivity |]]].
    split; [reflexivity | discriminate].
Qed.

(** The shape of one pass, path by path. *)
Lemma loop_iteration_cases (st : LoopState) (chunk : list Q) (now : Q) (r1 r2 : nat) :
  loop_iteration st chunk now r1 r2 = Ret (st, NoPitch)
  \/ loop_iteration st chunk now r1 r2 = Ret (st, Suppressed)
  \/ exists e st' v b,
       In e FRETBOARD
       /\ debounce_step st (label_of e) now
          = Some (mkLoopState (target st) (Some (label_of e)) now)
       /\ decide_step (mkLoopState (target st) (Some (label_of e)) now)
                      (label_of e) r1 r2 = Ret (st', v, b)
       /\ loop_iteration st chunk now r1 r2 = Ret (st', Heard (label_of e) v).
Proof.
  assert (Hrun : loop_iteration st chunk now r1 r2
                 = loop_iteration st chunk now r1 r2) by reflexivity.
  unfold loop_iteration at 2 in Hrun.
  destruct (detect_outcome chunk) as [Hd | (lag & _ & _ & Hd)];
    rewrite Hd in Hrun; unfold bind at 1 in Hrun; [now left |].
  set (freq := (inject_Z SAMPLE_RATE / inject_Z lag)%Q) in *.
  destruct (detected_frequency_mapped chunk freq Hd) as (e & He & Hin).
  rewrite He in Hrun. destruct e as [[[s fret] midi] name].
  change (s, fret, pitch_class_name midi)
    with (label_of (s, fret, midi, name)) in Hrun.
  set (e := (s, fret, midi, name)) in *.
  destruct (debounce_step st (label_of e) now) as [st1 |] eqn:Edeb;
    [| right; now left].
  right. right.
  assert (Hst1 : st1 = mkLoopState (target st) (Some (label_of e)) now).
  { unfold debounce_step in Edeb.
    destruct (debounced st (label_of e) now); [discriminate | now inversion Edeb]. }
  subst st1.
  destruct (decide_step_returns (mkLoopState (target st) (Some (label_of e)) now)
              (label_of e) r1 r2) as (st' & v & b & Hdec & _).
  exists e, st', v, b. rewrite Hdec in Hrun. unfold bind in Hrun.
  split; [assumption | split; [exact Edeb | split; assumption]].
Qed.

(** X15.  One pass of the loop never raises, and its mapping step never
    comes back empty: every frequency the detector returns is within
    reach of the fretboard, so the [continue] of line 159 is never
    taken. *)
Theorem loop_iteration_total
  (st : LoopState) (chunk : list Q) (now : Q) (r1 r2 : nat) :
  exists st' o,
    loop_iteration st chunk now r1 r2 = Ret (st', o) /\ o <> NoMatch.
Proof.
  destruct (loop_iteration_cases st chunk now r1 r2)
    as [H | [H | (e & st' & v & b & _ & _ & _ & H)]]; rewrite H;
    eexists _, _; (split; [reflexivity | discriminate]).
Qed.

(** X16.  What one pass does to the loop's variables.  Without a pitch,
    or with a suppressed label, nothing changes.  A heard label is the
    label of a fretboard entry that the debounce test let through; it
    becomes the last event with the pass's clock value, also when the
    target is replaced; and the target changes only with the verdict
    [Correct], to the generator's draw. *)
Theorem loop_iteration_effects
  (st : LoopState) (chunk : list Q) (now : Q) (r1 r2 : nat)
  (st' : LoopState) (o : Outcome) :
  loop_iteration st chunk now r1 r2 = Ret (st', o) ->
  match o with
  | Heard label v =>
      (exists e, In e FRETBOARD /\ label = label_of e)
      /\ ~ (last_event_label st = Some label
            /\ (now - last_event_time st < EVENT_DEBOUNCE_SECONDS)%Q)
      /\ last_event_label st' = Some label
      /\ last_event_time st' = now
      /\ (v <> Correct -> target st' = target st)
      /\ (v = Correct -> random_target_string_and_note r1 r2 = Ret (target st'))
  | _ => st' = st
  end.
Proof.
  intros H.
  destruct (loop_iteration_cases st chunk now r1 r2)
    as [H' | [H' | (e & st1 & v & b & Hin & Hdeb & Hdec & H')]];
    rewrite H' in H; inversion H; subst; try reflexivity.
  destruct (decide_step_returns (mkLoopState (target st) (Some (label_of e)) now)
              (label_of e) r1 r2) as (st2 & v2 & b2 & Hdec2 & Hl & Ht & Hkeep & Hnew).
  rewrite Hdec in Hdec2. inversion Hdec2; subst st2 v2 b2.
  cbn [last_event_label last_event_time] in Hl, Ht.
  split; [now exists e |].
  split.
  { intros Hsup. apply debounce_step_suppressed in Hsup. congruence. }
  split; [assumption | split; [assumption | split; [| assumption]]].
  intros Hv. now rewrite (Hkeep Hv).
Qed.

(** 980 Hz is above the fretboard: it is heard as its highest note. *)
Lemma nearest_fret_980 :
  nearest_fret_from_freq (Some (Q2R (44100 # 45))) = Some (1, 12, 76, "E5"%string).
Proof.
  replace (Q2R (44100 # 45)) with 980%R by (unfold Q2R; simpl; lra).
  unfold nearest_fret_from_freq. rewrite freq_to_midi_positive by lra.
  assert (Hlo : (1 < log2 (980 / 440))%R).
  { replace 1%R with (INR 1) by reflexivity. rewrite <- log2_pow.
    apply log2_increasing; simpl; lra. }
  assert (Hhi : (log2 (980 / 440) < 2)%R).
  { replace 2%R with (INR 2) by (simpl; ring). rewrite <- log2_pow.
    apply log2_increasing; simpl; lra. }
  apply scan_above_range. lra.
Qed.

(** The loop at work: the target is "STRING 1 - E", the chunk holds two
    clicks 45 samples apart; E5 on string 1 is heard, judged correct, and
    the next target is drawn. *)
Lemma loop_iteration_two_clicks :
  loop_iteration (initial_state (1, 64, "E"%string, 0, "E4"%string))
                 two_clicks (10 # 1)%Q 7 29
  = Ret (mkLoopState (5, 48, "C"%string, 3, "C3"%string)
                     (Some (1, 12, "E"%string)) (10 # 1)%Q,
         Heard (1, 12, "E"%string) Correct).
Proof.
  unfold loop_iteration. rewrite detect_two_clicks. unfold bind at 1.
  rewrite nearest_fret_980. vm_compute. reflexivity.
Qed.

Lemma loop_iteration_effects_witness :
  (exists e, In e FRETBOARD /\ (1, 12, "E"%string) = label_of e)
  /\ ~ (None = Some (1, 12, "E"%string)
        /\ ((10 # 1) - 0 < EVENT_DEBOUNCE_SECONDS)%Q)
  /\ Some (1, 12, "E"%string) = Some (1, 12, "E"%string)
  /\ (10 # 1)%Q = (10 # 1)%Q
  /\ (Correct <> Correct ->
      (5, 48, "C"%string, 3, "C3"%string) = (1, 64, "E"%string, 0, "E4"%string))
  /\ (Correct = Correct ->
      random_target_string_and_note 7 29 = Ret (5, 48, "C"%string, 3, "C3"%string)).
Proof.
  apply (loop_iteration_effects
           (initial_state (1, 64, "E"%string, 0, "E4"%string))
           two_clicks (10 # 1)%Q 7 29
           (mkLoopState (5, 48, "C"%string, 3, "C3"%string)
                        (Some (1, 12, "E"%string)) (10 # 1)%Q)
           (Heard (1, 12, "E"%string) Correct)).
  exact loop_iteration_two_clicks.
Defined.

(** ** Runs of the debounce step *)

Lemma debounce_step_some (st st' : LoopState) (label : Label) (now : Q) :
  debounce_step st label now = Some st' ->
  st' = mkLoopState (target st) (Some label) now
  /\ (last_event_label st = Some label ->
      (EVENT_DEBOUNCE_SECONDS <= now - last_event_time st)%Q).
Proof.
  intros H. unfold debounce_step in H.
  destruct (debounced st label now) eqn:E; [discriminate |].
  inversion H. split; [reflexivity |].
  intros Hl. apply Qnot_lt_le. intros Hlt.
  assert (Ht : debounced st label now = true) by (apply debounced_iff; now split).
  congruence.
Qed.

Lemma accepted_events_head (st : LoopState) (events : list (Label * Q)) (b : Label * Q) :
  hd_error (accepted_events st events) = Some b ->
  last_event_label st = Some (fst b) ->
  (EVENT_DEBOUNCE_SECONDS <= snd b - last_event_time st)%Q.
Proof.
  induction events as [| [label now] rest IH]; simpl; [discriminate |].
  destruct (debounce_step st label now) as [st1 |] eqn:E; [| exact IH].
  simpl. intros Hb Hl. inversion Hb; subst b. simpl in *.
  now apply (debounce_step_some _ _ _ _ E).
Qed.

(** X17.  Debounce invariant on any run of events, whatever the clock
    does: the accepted events are events of the run, and two accepted
    events next to each other that carry the same label are at least
    [EVENT_DEBOUNCE_SECONDS] apart; the same holds between the event
    accepted before the run and the first one accepted in it. *)
Theorem accepted_events_spaced (st : LoopState) (events : list (Label * Q)) :
  incl (accepted_events st events) events
  /\ (forall b, hd_error (accepted_events st events) = Some b ->
        last_event_label st = Some (fst b) ->
        (EVENT_DEBOUNCE_SECONDS <= snd b - last_event_time st)%Q)
  /\ (forall (i : nat) (a b : Label * Q),
        nth_error (accepted_events st events) i = Some a ->
        nth_error (accepted_events st events) (S i) = Some b ->
        spaced a b).
Proof.
  split; [| split; [intros b; apply accepted_events_head |]].
  - revert st. induction events as [| [label now] rest IH]; intros st; simpl.
    + apply incl_refl.
    + destruct (debounce_step st label now) as [st1 |].
      * apply incl_cons; [now left |]. apply incl_tl. apply IH.
      * apply incl_tl. apply IH.
  - revert st. induction events as [| [label now] rest IH]; intros st i a b; simpl.
    + destruct i; discriminate.
    + destruct (debounce_step st label now) as [st1 |] eqn:E; [| apply IH].
      destruct i as [| i]; simpl; [| apply IH].
      intros Ha Hb. inversion Ha; subst a. unfold spaced. simpl. intros Hlab.
      apply debounce_step_some in E. destruct E as [-> _].
      assert (Hhd : hd_error (accepted_events
                                (mkLoopState (target st) (Some label) now) rest) = Some b)
        by (destruct (accepted_events _ rest); [discriminate | exact Hb]).
      apply (accepted_events_head _ _ _ Hhd). simpl. now rewrite Hlab.
Qed.

(** ** Targets *)

(** A drawn target is the target of a fretboard entry. *)
Lemma random_target_on_fretboard (r1 r2 : nat) (t : Target) :
  random_target_string_and_note r1 r2 = Ret t ->
  exists e, In e FRETBOARD /\ t = target_of e.
Proof.
  intros H. destruct (random_target_returns r1 r2) as (s & e & _ & Hin & Hs & Hret).
  rewrite Hret in H. inversion H; subst t. exists e. split; [assumption |].
  unfold target_of. now rewrite Hs.
Qed.

(** The entry at index [i] of the fretboard is drawn by the draws
    [i / 13] (the string) and [i mod 13] (the fret). *)
Lemma random_target_at_index (i : nat) (e : FretPosition) :
  nth_error FRETBOARD i = Some e ->
  random_target_string_and_note (i / 13) (i mod 13) = Ret (target_of e).
Proof.
  intros H.
  assert (Hlt : (i < 78)%nat).
  { assert (Hl : (i < List.length FRETBOARD)%nat)
      by (apply nth_error_Some; congruence).
    vm_compute in Hl. lia. }
  revert e H.
  do 78 (destruct i as [| i];
         [intros e H; vm_compute in H; injection H as <-; vm_compute; reflexivity |]).
  lia.
Qed.

(** X18.  Every position of the fretboard can become the target: for
    each entry there are draws of the generator (a string index below 6
    and a fret index below 13) for which
    [random_target_string_and_note] returns that entry's string, MIDI
    number, pitch class, fret and name. *)
Theorem random_target_reaches (e : FretPosition) :
  In e FRETBOARD ->
  exists r1 r2 : nat,
    (r1 < 6)%nat /\ (r2 < 13)%nat
    /\ random_target_string_and_note r1 r2 = Ret (target_of e).
Proof.
  intros Hin. apply In_nth_error in Hin. destruct Hin as (i & Hi).
  assert (Hlt : (i < 78)%nat).
  { assert (H : (i < List.length FRETBOARD)%nat)
      by (apply nth_error_Some; congruence).
    vm_compute in H. lia. }
  exists (i / 13)%nat, (i mod 13)%nat.
  split; [apply Nat.Div0.div_lt_upper_bound; lia |].
  split; [apply Nat.mod_upper_bound; lia |].
  now apply random_target_at_index.
Qed.

Lemma random_target_reaches_witness :
  exists r1 r2 : nat,
    (r1 < 6)%nat /\ (r2 < 13)%nat
    /\ random_target_string_and_note r1 r2
       = Ret (target_of (1, 12, 76, "E5"%string)).
Proof.
  apply (random_target_reaches (1, 12, 76, "E5"%string)).
  apply high_E_on_fretboard.
Defined.

(** ** The verdict on the neck *)

(** X19.  What "correct" means on the neck.  With the target drawn from
    the entry [e], a played entry gets the verdict [Correct] exactly when
    it is on the target's string and its fret is the target's fret or
    twelve frets away from it: the octave on the same string counts, the
    same note on another string does not. *)
Theorem correct_verdict_positions
  (st : LoopState) (e played : FretPosition) (r1 r2 : nat) :
  In e FRETBOARD -> In played FRETBOARD -> target st = target_of e ->
  ((exists st', decide_step st (label_of played) r1 r2 = Ret (st', Correct, true))
   <-> fp_string played = fp_string e
       /\ (fp_fret played = fp_fret e \/ Z.abs (fp_fret played - fp_fret e) = 12)).
Proof.
  intros He Hp Ht.
  destruct (fretboard_entry e He) as (oe & _ & Hfe & _).
  destruct (fretboard_entry played Hp) as (op & _ & Hfp & _).
  unfold MAX_FRET in Hfe, Hfp.
  unfold decide_step, label_of. rewrite Ht.
  cbn [target_of target_pc target_string].
  destruct (String.eqb_spec (pitch_class_name (fp_midi played))
                            (pitch_class_name (fp_midi e))) as [Hpc | Hpc];
    destruct (Z.eqb_spec (fp_string played) (fp_string e)) as [Hs | Hs];
    cbn [andb].
  - apply pitch_class_name_mod in Hpc.
    pose proof (same_string_offsets played e Hp He Hs) as Hoff.
    pose proof (Z.div_mod (fp_midi played) 12) as D1.
    pose proof (Z.div_mod (fp_midi e) 12) as D2.
    split; [intros _; split; [assumption | lia] |].
    intros _. destruct (random_target_returns r1 r2) as (s & x & _ & _ & _ & Hret).
    rewrite Hret. unfold bind. eexists. reflexivity.
  - split; [intros (st' & H); discriminate | intros [H _]; contradiction].
  - split; [intros (st' & H); discriminate |].
    intros [_ Hf]. exfalso. apply Hpc. apply pitch_class_name_mod.
    pose proof (same_string_offsets played e Hp He Hs) as Hoff.
    destruct Hf as [Hf | Hf].
    + replace (fp_midi played) with (fp_midi e) by lia. reflexivity.
    + assert (Hc : fp_midi played = fp_midi e + 1 * 12
                   \/ fp_midi played = fp_midi e + (-1) * 12) by lia.
      destruct Hc as [-> | ->]; apply Z_mod_plus_full.
  - split; [intros (st' & H); discriminate | intros [H _]; contradiction].
Qed.

Lemma correct_verdict_positions_witness :
  (exists st',
      decide_step (initial_state (target_of (6, 0, 40, "E2"%string)))
                  (label_of (6, 12, 52, "E3"%string)) 7 29
      = Ret (st', Correct, true))
  <-> 6 = 6 /\ (12 = 0 \/ Z.abs (12 - 0) = 12).
Proof.
  apply (correct_verdict_positions
           (initial_state (target_of (6, 0, 40, "E2"%string)))
           (6, 0, 40, "E2"%string) (6, 12, 52, "E3"%string) 7 29).
  - apply low_E_on_fretboard.
  - apply low_E_octave_on_fretboard.
  - reflexivity.
Defined.

(** ** Runs of the main loop *)

Lemma loop_iteration_target
  (st : LoopState) (chunk : list Q) (now : Q) (r1 r2 : nat)
  (st' : LoopState) (o : Outcome) :
  loop_iteration st chunk now r1 r2 = Ret (st', o) ->
  o <> NoMatch
  /\ ((forall label, o <> Heard label Correct) -> target st' = target st)
  /\ ((exists e, In e FRETBOARD /\ target st = target_of e) ->
      exists e, In e FRETBOARD /\ target st' = target_of e).
Proof.
  intros H.
  destruct (loop_iteration_cases st chunk now r1 r2)
    as [H' | [H' | (e & st1 & v & b & Hin & Hdeb & Hdec & H')]];
    rewrite H' in H; inversion H; subst;
    try (split; [discriminate | split; [reflexivity | tauto]]).
  destruct (decide_step_returns (mkLoopState (target st) (Some (label_of e)) now)
              (label_of e) r1 r2) as (st2 & v2 & b2 & Hdec2 & _ & _ & Hkeep & Hnew).
  rewrite Hdec in Hdec2. inversion Hdec2; subst st2 v2 b2.
  split; [discriminate |].
  destruct v.
  - split; [intros Hno; exfalso; now apply (Hno (label_of e)) |].
    intros _. apply (random_target_on_fretboard r1 r2). now apply Hnew.
  - rewrite Hkeep by discriminate. split; [reflexivity | tauto].
  - rewrite Hkeep by discriminate. split; [reflexivity | tauto].
Qed.

Lemma loop_iteration_returns
  (st : LoopState) (chunk : list Q) (now : Q) (r1 r2 : nat) :
  exists st' o, loop_iteration st chunk now r1 r2 = Ret (st', o).
Proof.
  destruct (loop_iteration_cases st chunk now r1 r2)
    as [H | [H | (e & st' & v & b & _ & _ & _ & H)]]; rewrite H;
    eexists _, _; reflexivity.
Qed.

Lemma listen_returns (passes : list Pass) (st : LoopState) :
  (exists e, In e FRETBOARD /\ target st = target_of e) ->
  exists st' outcomes,
    listen st passes = Ret (st', outcomes)
    /\ List.length outcomes = List.length passes
    /\ ~ In NoMatch outcomes
    /\ exists e, In e FRETBOARD /\ target st' = target_of e.
Proof.
  revert st. induction passes as [| [[[chunk now] r1] r2] rest IH]; intros st Hinv.
  - exists st, []. simpl. split; [reflexivity | split; [reflexivity | split; tauto]].
  - cbn [listen].
    destruct (loop_iteration_returns st chunk now r1 r2) as (st1 & o & Hrun).
    rewrite Hrun. unfold bind at 1.
    destruct (loop_iteration_target _ _ _ _ _ _ _ Hrun) as (Ho & _ & Htgt).
    destruct (IH st1 (Htgt Hinv)) as (st' & os & Hrest & Hlen & Hno & Hinv').
    rewrite Hrest. unfold bind.
    exists st', (o :: os). split; [reflexivity |].
    split; [simpl; now rewrite Hlen |].
    split; [| assumption].
    intros [H | H]; [now apply Ho | now apply Hno].
Qed.

(** X20.  [main] never raises, whatever the stream delivers: on every
    finite run it draws a first target and gives one outcome per chunk
    read, the mapping step never comes back empty, and after the run the
    target is still a position of the fretboard. *)
Theorem main_never_raises (r1 r2 : nat) (passes : list Pass) :
  exists st outcomes,
    main r1 r2 passes = Ret (st, outcomes)
    /\ List.length outcomes = List.length passes
    /\ ~ In NoMatch outcomes
    /\ exists e, In e FRETBOARD /\ target st = target_of e.
Proof.
  unfold main.
  destruct (random_target_returns r1 r2) as (s & e & _ & Hin & Hs & Hret).
  rewrite Hret. unfold bind.
  apply listen_returns. cbn [initial_state target].
  exists e. split; [assumption |]. unfold target_of. now rewrite Hs.
Qed.

(** X21.  The target stays until it is answered: over a run of passes
    in which no event is judged [Correct], the target at the end is the
    target at the start. *)
Theorem listen_keeps_target
  (passes : list Pass) (st st' : LoopState) (outcomes : list Outcome) :
  listen st passes = Ret (st', outcomes) ->
  (forall label, ~ In (Heard label Correct) outcomes) ->
  target st' = target st.
Proof.
  revert st st' outcomes.
  induction passes as [| [[[chunk now] r1] r2] rest IH]; intros st st' outcomes.
  - simpl. intros H _. now inversion H.
  - cbn [listen].
    destruct (loop_iteration st chunk now r1 r2) as [[st1 o] | exn] eqn:Hrun;
      [| discriminate].
    unfold bind at 1.
    destruct (listen st1 rest) as [[st2 os] | exn] eqn:Hrest; [| discriminate].
    unfold bind. intros H Hno. inversion H; subst st' outcomes.
    rewrite (IH st1 st2 os Hrest) by (intros l Hl; apply (Hno l); now right).
    apply loop_iteration_target in Hrun. destruct Hrun as (_ & Hkeep & _).
    apply Hkeep. intros label ->. apply (Hno label). now left.
Qed.

(** The same chunk with the target "STRING 6 - E": the note name is
    right, the string is not, and the target stays. *)
Lemma loop_iteration_wrong_string :
  loop_iteration (initial_state (6, 40, "E"%string, 0, "E2"%string))
                 two_clicks (10 # 1)%Q 7 29
  = Ret (mkLoopState (6, 40, "E"%string, 0, "E2"%string)
                     (Some (1, 12, "E"%string)) (10 # 1)%Q,
         Heard (1, 12, "E"%string) RightNoteWrongString).
Proof.
  unfold loop_iteration. rewrite detect_two_clicks. unfold bind at 1.
  rewrite nearest_fret_980. vm_compute. reflexivity.
Qed.

Lemma listen_two_clicks :
  listen (initial_state (6, 40, "E"%string, 0, "E2"%string))
         [([], (9 # 1)%Q, 0%nat, 0%nat); (two_clicks, (10 # 1)%Q, 7%nat, 29%nat)]
  = Ret (mkLoopState (6, 40, "E"%string, 0, "E2"%string)
                     (Some (1, 12, "E"%string)) (10 # 1)%Q,
         [NoPitch; Heard (1, 12, "E"%string) RightNoteWrongString]).
Proof.
  cbn [listen].
  replace (loop_iteration (initial_state (6, 40, "E"%string, 0, "E2"%string))
                          [] (9 # 1)%Q 0 0)
    with (Ret (initial_state (6, 40, "E"%string, 0, "E2"%string), NoPitch))
    by reflexivity.
  unfold bind at 1. cbv beta iota.
  rewrite loop_iteration_wrong_string. reflexivity.
Qed.

Lemma listen_keeps_target_witness :
  target (mkLoopState (6, 40, "E"%string, 0, "E2"%string)
                      (Some (1, 12, "E"%string)) (10 # 1)%Q)
  = target (initial_state (6, 40, "E"%string, 0, "E2"%string)).
Proof.
  apply (listen_keeps_target
           [([], (9 # 1)%Q, 0%nat, 0%nat); (two_clicks, (10 # 1)%Q, 7%nat, 29%nat)]
           (initial_state (6, 40, "E"%string, 0, "E2"%string))
           (mkLoopState (6, 40, "E"%string, 0, "E2"%string)
                        (Some (1, 12, "E"%string)) (10 # 1)%Q)
           [NoPitch; Heard (1, 12, "E"%string) RightNoteWrongString]).
  - exact listen_two_clicks.
  - intros label [H | [H | []]]; discriminate.
Defined.

(** ** A constant buffer *)

(** The detector in two stages: the gate on the peak, then the search on
    the normalised buffer. *)
Lemma detect_by_stages (audio : list Q) :
  audio <> [] ->
  detect_pitch_from_chunk audio
  = (peak <- peak_amplitude audio ;;
     if Qlt_le_dec peak AMPLITUDE_THRESHOLD then Ret None
     else pitch_from_normalised (map (fun x => x / peak)%Q (dc_removed audio))).
Proof.
  intros Hne. rewrite detect_nonempty_unfold by assumption.
  unfold autocorrelation, peak_amplitude, pitch_from_normalised. cbv zeta.
  destruct (np_max (map Qabs (dc_removed audio))) as [peak | e]; cbn [bind];
    [| reflexivity].
  destruct (Qlt_le_dec peak AMPLITUDE_THRESHOLD); cbn [bind]; reflexivity.
Qed.

Lemma inject_Z_of_nat_S (n : nat) :
  (inject_Z (Z.of_nat (S n)) == inject_Z (Z.of_nat n) + 1)%Q.
Proof. rewrite Nat2Z.inj_succ. unfold Z.succ. now rewrite inject_Z_plus. Qed.

Lemma inject_Z_of_nat_S_nonzero (n : nat) : ~ (inject_Z (Z.of_nat (S n)) == 0)%Q.
Proof. unfold Qeq, inject_Z. simpl. lia. Qed.

Lemma np_sum_constant (c : Q) (a : list Q) :
  Forall (fun x => x == c)%Q a ->
  (np_sum a == inject_Z (Z.of_nat (List.length a)) * c)%Q.
Proof.
  induction 1 as [| x a Hx _ IH]; [simpl; ring |].
  cbn [np_sum fold_right List.length].
  change (fold_right Qplus 0%Q a) with (np_sum a).
  rewrite IH, Hx, inject_Z_of_nat_S. ring.
Qed.

(** X24.  A constant buffer is silence, however large the constant:
    after the mean is removed nothing is left, the peak is 0 and the gate
    returns [None]. *)
Theorem detect_constant_buffer (audio : list Q) (c : Q) :
  Forall (fun x => x == c)%Q audio -> detect_pitch_from_chunk audio = Ret None.
Proof.
  intros Hc. destruct audio as [| x0 audio]; [reflexivity |].
  set (l := x0 :: audio) in *.
  assert (Hne : l <> []) by discriminate.
  destruct (peak_amplitude_returns l Hne) as (p & Hp & Hin).
  rewrite (detect_by_stages l Hne), Hp. cbn [bind].
  assert (Hmean : (np_mean l == c)%Q).
  { unfold np_mean. rewrite (np_sum_constant c l Hc).
    field. apply inject_Z_of_nat_S_nonzero. }
  assert (Hzero : (p == 0)%Q).
  { unfold dc_removed in Hin. rewrite map_map in Hin.
    apply in_map_iff in Hin. destruct Hin as (x & <- & Hx).
    rewrite Forall_forall in Hc. rewrite (Hc x Hx), Hmean.
    setoid_replace (c - c)%Q with 0%Q by ring. reflexivity. }
  destruct (Qlt_le_dec p AMPLITUDE_THRESHOLD) as [_ | Hge]; [reflexivity |].
  exfalso. rewrite Hzero in Hge. vm_compute in Hge. now apply Hge.
Qed.

Lemma detect_constant_buffer_witness :
  detect_pitch_from_chunk (repeat (5 # 1)%Q 1024) = Ret None.
Proof.
  apply (detect_constant_buffer (repeat (5 # 1)%Q 1024) (5 # 1)%Q).
  apply Forall_forall. intros x Hx. apply repeat_spec in Hx. now subst x.
Defined.

(** ** Which lag wins *)

(** The invariant of [np.argmax]'s scan: [pre] is the part already
    read, [best_i] the index of its first maximum. *)
Lemma argmax_from_first_max (a pre : list Q) (i best_i : nat) (best : Q) :
  i = List.length pre ->
  (best_i < List.length pre)%nat ->
  best = nth best_i pre 0%Q ->
  (forall j, (j < List.length pre)%nat -> (nth j pre 0 <= best)%Q) ->
  (forall j, (j < best_i)%nat -> (nth j pre 0 < best)%Q) ->
  let r := argmax_from a i best_i best in
  (r < List.length (pre ++ a))%nat
  /\ (forall j, (j < List.length (pre ++ a))%nat ->
        (nth j (pre ++ a) 0 <= nth r (pre ++ a) 0)%Q)
  /\ (forall j, (j < r)%nat -> (nth j (pre ++ a) 0 < nth r (pre ++ a) 0)%Q).
Proof.
  revert pre i best_i best.
  induction a as [| y a IH]; intros pre i best_i best Hi Hb Hbest Hle Hlt.
  - simpl. rewrite app_nil_r. subst best. auto.
  - cbn [argmax_from].
    assert (Hstep : pre ++ y :: a = (pre ++ [y]) ++ a)
      by (now rewrite <- app_assoc).
    assert (Hlen : List.length (pre ++ [y]) = S (List.length pre))
      by (rewrite length_app; simpl; lia).
    assert (Hy : nth (List.length pre) (pre ++ [y]) 0%Q = y)
      by (rewrite app_nth2 by lia; now rewrite Nat.sub_diag).
    assert (Hold : forall j, (j < List.length pre)%nat ->
                             nth j (pre ++ [y]) 0%Q = nth j pre 0%Q)
      by (intros j Hj; now apply app_nth1).
    rewrite Hstep.
    destruct (Qlt_le_dec best y) as [Hnew | Hkeep].
    + apply (IH (pre ++ [y])).
      * lia.
      * lia.
      * subst i. now rewrite Hy.
      * intros j Hj. destruct (Nat.eq_dec j (List.length pre)) as [-> | Hne].
        -- rewrite Hy. apply Qle_refl.
        -- rewrite Hold by lia. apply Qlt_le_weak.
           eapply Qle_lt_trans; [apply Hle; lia | exact Hnew].
      * intros j Hj. rewrite Hold by lia.
        eapply Qle_lt_trans; [apply Hle; lia | exact Hnew].
    + apply (IH (pre ++ [y])).
      * lia.
      * lia.
      * now rewrite Hold.
      * intros j Hj. destruct (Nat.eq_dec j (List.length pre)) as [-> | Hne].
        -- now rewrite Hy.
        -- rewrite Hold by lia. apply Hle. lia.
      * intros j Hj. rewrite Hold by lia. now apply Hlt.
Qed.

(** [np.argmax] returns the first index of the maximum. *)
Lemma np_argmax_first_max (l : list Q) (k : nat) :
  np_argmax l = Ret k ->
  (k < List.length l)%nat
  /\ (forall j, (j < List.length l)%nat -> (nth j l 0 <= nth k l 0)%Q)
  /\ (forall j, (j < k)%nat -> (nth j l 0 < nth k l 0)%Q).
Proof.
  destruct l as [| x l]; [discriminate |].
  simpl np_argmax. intros H. inversion H; subst k. clear H.
  apply (argmax_from_first_max l [x] 1 0 x).
  - reflexivity.
  - simpl. lia.
  - reflexivity.
  - intros j Hj. simpl in Hj. replace j with 0%nat by lia. apply Qle_refl.
  - intros j Hj. lia.
Qed.

(** Inside the window the search reads the correlation itself. *)
Lemma window_nth (corr : list Q) (lo hi : Z) (j : nat) :
  0 <= lo <= hi -> hi <= Z.of_nat (List.length corr) ->
  (j < Z.to_nat (hi - lo))%nat ->
  nth j (slice (zero_prefix corr lo) lo hi) 0%Q = nth (Z.to_nat lo + j) corr 0%Q.
Proof.
  intros Hlo Hhi Hj.
  set (n := Z.to_nat lo).
  assert (Hn : (n <= List.length corr)%nat) by (unfold n; lia).
  assert (Hzp : zero_prefix corr lo
                = map (fun _ => 0%Q) (firstn n corr) ++ skipn n corr).
  { unfold zero_prefix. now rewrite slice_index_in_bounds by lia. }
  assert (Hskip : skipn n (zero_prefix corr lo) = skipn n corr).
  { rewrite Hzp, skipn_app, length_map, length_firstn.
    rewrite skipn_all2 by (rewrite length_map, length_firstn; lia).
    replace (n - Nat.min n (List.length corr))%nat with 0%nat by lia.
    reflexivity. }
  unfold slice. rewrite zero_prefix_length.
  rewrite !slice_index_in_bounds by lia. fold n.
  rewrite Hskip, nth_firstn.
  destruct (Nat.ltb_spec j (Z.to_nat hi - n)); [| unfold n in *; lia].
  now rewrite nth_skipn.
Qed.

(** X25.  Which lag wins: when the search returns a lag, it is an index
    of the window [[min_lag, max_lag)] (with [max_lag] clamped to the
    last index), no lag of the window has a greater autocorrelation, and
    every smaller lag of the window has a strictly smaller one; of
    several equal maxima the smallest lag, the highest frequency, is
    taken. *)
Theorem best_lag_first_maximum (corr : list Q) (lag : Z) :
  best_lag corr = Ret (Some lag) ->
  let max_lag := Z.min max_lag_unclamped (Z.of_nat (List.length corr) - 1) in
  min_lag <= lag < max_lag
  /\ (forall j, min_lag <= j < max_lag ->
        (nth (Z.to_nat j) corr 0 <= nth (Z.to_nat lag) corr 0)%Q)
  /\ (forall j, min_lag <= j < lag ->
        (nth (Z.to_nat j) corr 0 < nth (Z.to_nat lag) corr 0)%Q).
Proof.
  intros H hi. unfold best_lag in H.
  destruct (lag_window_cases (Z.of_nat (List.length corr))) as [[_ Hn] | [Hlt Hs]].
  { rewrite Hn in H. discriminate. }
  rewrite Hs in H. fold hi in Hlt, H.
  rewrite min_lag_value in *.
  assert (Hhi : hi <= Z.of_nat (List.length corr) - 1) by (unfold hi; lia).
  destruct (np_argmax (slice (zero_prefix corr 44) 44 hi)) as [k | e] eqn:Ek;
    [| discriminate].
  cbn [bind] in H.
  destruct (Z.of_nat k + 44 <=? 0); [discriminate |].
  inversion H; subst lag. clear H.
  apply np_argmax_first_max in Ek. destruct Ek as (Hk & Hmax & Hfirst).
  rewrite slice_length in Hk, Hmax by (rewrite ?zero_prefix_length; lia).
  assert (Hnth : forall j, (j < Z.to_nat (hi - 44))%nat ->
                   nth j (slice (zero_prefix corr 44) 44 hi) 0%Q
                   = nth (Z.to_nat (Z.of_nat j + 44)) corr 0%Q).
  { intros j Hj. rewrite window_nth by lia. f_equal. lia. }
  split; [lia | split].
  - intros j Hj.
    replace j with (Z.of_nat (Z.to_nat (j - 44)) + 44) by lia.
    rewrite <- !Hnth by lia. apply Hmax. lia.
  - intros j Hj.
    replace j with (Z.of_nat (Z.to_nat (j - 44)) + 44) by lia.
    rewrite <- !Hnth by lia. apply Hfirst. lia.
Qed.

Lemma best_lag_first_maximum_witness :
  min_lag <= 44 < Z.min max_lag_unclamped (Z.of_nat (List.length (repeat 0%Q 630)) - 1)
  /\ (forall j, min_lag <= j
                < Z.min max_lag_unclamped (Z.of_nat (List.length (repeat 0%Q 630)) - 1) ->
        (nth (Z.to_nat j) (repeat 0%Q 630) 0 <= nth (Z.to_nat 44) (repeat 0%Q 630) 0)%Q)
  /\ (forall j, min_lag <= j < 44 ->
        (nth (Z.to_nat j) (repeat 0%Q 630) 0 < nth (Z.to_nat 44) (repeat 0%Q 630) 0)%Q).
Proof.
  apply (best_lag_first_maximum (repeat 0%Q 630) 44).
  vm_compute. reflexivity.
Defined.

(** ** A note that keeps ringing *)

(** X26.  A note that keeps ringing does not answer twice.  After a pass
    in which a label was heard, whatever the verdict and also when the
    target has just been replaced, the next chunk that maps to the same
    label less than [EVENT_DEBOUNCE_SECONDS] later is suppressed: no
    verdict, no change of state. *)
Theorem ringing_note_suppressed
  (st st' : LoopState) (chunk chunk' : list Q) (now now' : Q) (r1 r2 r1' r2' : nat)
  (label : Label) (v : Verdict) (freq' : Q) (e' : FretPosition) :
  loop_iteration st chunk now r1 r2 = Ret (st', Heard label v) ->
  detect_pitch_from_chunk chunk' = Ret (Some freq') ->
  nearest_fret_from_freq (Some (Q2R freq')) = Some e' ->
  label_of e' = label ->
  (now' - now < EVENT_DEBOUNCE_SECONDS)%Q ->
  loop_iteration st' chunk' now' r1' r2' = Ret (st', Suppressed).
Proof.
  intros Hfirst Hd He Hl Hsoon.
  assert (Hlast : last_event_label st' = Some label /\ last_event_time st' = now).
  { destruct (loop_iteration_cases st chunk now r1 r2)
      as [H | [H | (e & st1 & v1 & b & _ & _ & Hdec & H)]];
      rewrite H in Hfirst; inversion Hfirst; subst.
    destruct (decide_step_returns
                (mkLoopState (target st) (Some (label_of e)) now)
                (label_of e) r1 r2) as (st2 & v2 & b2 & Hdec2 & Hlab & Htime & _).
    rewrite Hdec in Hdec2. inversion Hdec2; subst. now split. }
  destruct Hlast as [Hlab Htime].
  apply (loop_iteration_suppressed st' chunk' now' r1' r2' freq' e' Hd He).
  apply debounce_step_suppressed. unfold label_of in Hl. rewrite Hl, Htime.
  now split.
Qed.

Lemma ringing_note_suppressed_witness :
  loop_iteration (mkLoopState (5, 48, "C"%string, 3, "C3"%string)
                              (Some (1, 12, "E"%string)) (10 # 1)%Q)
                 two_clicks (102 # 10)%Q 0 0
  = Ret (mkLoopState (5, 48, "C"%string, 3, "C3"%string)
                     (Some (1, 12, "E"%string)) (10 # 1)%Q,
         Suppressed).
Proof.
  apply (ringing_note_suppressed
           (initial_state (1, 64, "E"%string, 0, "E4"%string))
           (mkLoopState (5, 48, "C"%string, 3, "C3"%string)
                        (Some (1, 12, "E"%string)) (10 # 1)%Q)
           two_clicks two_clicks (10 # 1)%Q (102 # 10)%Q 7 29 0 0
           (1, 12, "E"%string) Correct (44100 # 45)%Q (1, 12, 76, "E5"%string)).
  - exact loop_iteration_two_clicks.
  - exact detect_two_clicks.
  - exact nearest_fret_980.
  - reflexivity.
  - vm_compute. reflexivity.
Defined.

(** ** The analysis loop of [test_pitch.py] *)

Lemma range_step_empty (n : Z) : n <= 0 -> range_step 0 n BUFFER_SIZE = [].
Proof.
  intros Hn. unfold range_step, BUFFER_SIZE.
  replace (Z.to_nat ((n - 0 + 1024 - 1) / 1024)) with 0%nat; [reflexivity |].
  assert ((n - 0 + 1024 - 1) / 1024 <= 0); [| lia].
  apply Z.lt_succ_r. apply Z.div_lt_upper_bound; lia.
Qed.

(** The indices of the loop: 0, then the indices of the rest shifted by
    one buffer. *)
Lemma range_step_cons (n : Z) :
  0 < n ->
  range_step 0 n BUFFER_SIZE
  = 0 :: map (fun i => i + BUFFER_SIZE) (range_step 0 (n - BUFFER_SIZE) BUFFER_SIZE).
Proof.
  intros Hn. unfold range_step, BUFFER_SIZE.
  assert (Hq : (n - 0 + 1024 - 1) / 1024 = (n - 1024 - 0 + 1024 - 1) / 1024 + 1).
  { replace (n - 0 + 1024 - 1) with ((n - 1024 - 0 + 1024 - 1) + 1 * 1024) by lia.
    now rewrite Z.div_add by lia. }
  assert (Hnn : 0 <= (n - 1024 - 0 + 1024 - 1) / 1024)
    by (apply Z.div_pos; lia).
  rewrite Hq, Z2Nat.inj_add by lia.
  change (Z.to_nat 1) with 1%nat. rewrite Nat.add_comm. cbn [Nat.add seq map].
  f_equal. rewrite <- seq_shift, !map_map. apply map_ext. intros k. lia.
Qed.

Lemma slice_skip_buffer (audio : list Q) (i : Z) :
  0 <= i -> BUFFER_SIZE <= Z.of_nat (List.length audio) ->
  slice audio (i + BUFFER_SIZE) (i + BUFFER_SIZE + BUFFER_SIZE)
  = slice (skipn (Z.to_nat BUFFER_SIZE) audio) i (i + BUFFER_SIZE).
Proof.
  intros Hi Hlen. unfold slice. rewrite length_skipn.
  assert (Hidx : forall j, 0 <= j ->
            slice_index (Z.of_nat (List.length audio)) (j + BUFFER_SIZE)
            = (slice_index (Z.of_nat (List.length audio - Z.to_nat BUFFER_SIZE)) j
               + Z.to_nat BUFFER_SIZE)%nat).
  { intros j Hj. unfold slice_index, BUFFER_SIZE in *.
    destruct (Z.ltb_spec (j + 1024) 0); [lia |].
    destruct (Z.ltb_spec j 0); lia. }
  rewrite (Hidx i Hi), (Hidx (i + BUFFER_SIZE)) by (unfold BUFFER_SIZE; lia).
  rewrite skipn_skipn. f_equal. lia.
Qed.

Lemma padded_chunk_shift (audio : list Q) (i : Z) :
  0 <= i -> BUFFER_SIZE <= Z.of_nat (List.length audio) ->
  padded_chunk audio (i + BUFFER_SIZE)
  = padded_chunk (skipn (Z.to_nat BUFFER_SIZE) audio) i.
Proof.
  intros Hi Hlen. unfold padded_chunk. now rewrite slice_skip_buffer.
Qed.

Lemma range_step_nonneg (n i : Z) : In i (range_step 0 n BUFFER_SIZE) -> 0 <= i.
Proof.
  unfold range_step, BUFFER_SIZE. intros H. apply in_map_iff in H.
  destruct H as (k & <- & _). lia.
Qed.

(** The first chunk, and the chunks of what follows it. *)
Lemma analysis_chunks_cons (audio : list Q) :
  audio <> [] ->
  analysis_chunks audio
  = padded_chunk audio 0
    :: (if Z.of_nat (List.length audio) <=? BUFFER_SIZE then []
        else analysis_chunks (skipn (Z.to_nat BUFFER_SIZE) audio)).
Proof.
  intros Hne. unfold analysis_chunks.
  assert (Hpos : 0 < Z.of_nat (List.length audio))
    by (destruct audio; [contradiction | simpl; lia]).
  rewrite range_step_cons by assumption. cbn [map]. f_equal.
  destruct (Z.leb_spec (Z.of_nat (List.length audio)) BUFFER_SIZE) as [Hle | Hgt].
  - now rewrite range_step_empty by lia.
  - rewrite length_skipn.
    replace (Z.of_nat (List.length audio - Z.to_nat BUFFER_SIZE))
      with (Z.of_nat (List.length audio) - BUFFER_SIZE) by (unfold BUFFER_SIZE in *; lia).
    rewrite map_map. apply map_ext_in. intros i Hi.
    apply padded_chunk_shift; [| lia]. eapply range_step_nonneg; eauto.
Qed.

Lemma first_chunk (audio : list Q) :
  padded_chunk audio 0
  = if Z.of_nat (List.length audio) <? BUFFER_SIZE
    then audio ++ repeat 0%Q (Z.to_nat (BUFFER_SIZE - Z.of_nat (List.length audio)))
    else firstn (Z.to_nat BUFFER_SIZE) audio.
Proof.
  unfold padded_chunk, slice, np_pad_right. cbv zeta.
  assert (H0 : slice_index (Z.of_nat (List.length audio)) 0 = 0%nat)
    by (unfold slice_index; destruct (Z.ltb_spec 0 0); lia).
  assert (HB : slice_index (Z.of_nat (List.length audio)) (0 + BUFFER_SIZE)
               = Nat.min (Z.to_nat BUFFER_SIZE) (List.length audio))
    by (unfold slice_index, BUFFER_SIZE; destruct (Z.ltb_spec (0 + 1024) 0); lia).
  rewrite H0, HB, skipn_O, Nat.sub_0_r.
  destruct (Z.ltb_spec (Z.of_nat (List.length audio)) BUFFER_SIZE) as [Hshort | Hlong].
  - replace (Nat.min (Z.to_nat BUFFER_SIZE) (List.length audio))
      with (List.length audio) by lia.
    rewrite firstn_all.
    destruct (Z.ltb_spec (Z.of_nat (List.length audio)) BUFFER_SIZE); [reflexivity | lia].
  - replace (Nat.min (Z.to_nat BUFFER_SIZE) (List.length audio))
      with (Z.to_nat BUFFER_SIZE) by lia.
    rewrite length_firstn.
    destruct (Z.ltb_spec (Z.of_nat (Nat.min (Z.to_nat BUFFER_SIZE) (List.length audio)))
                         BUFFER_SIZE); [lia | reflexivity].
Qed.

(** A recording of at most one buffer gives one chunk, padded. *)
Lemma analysis_chunks_short (audio : list Q) :
  0 < Z.of_nat (List.length audio) <= BUFFER_SIZE ->
  analysis_chunks audio
  = [audio ++ repeat 0%Q (Z.to_nat (BUFFER_SIZE - Z.of_nat (List.length audio)))].
Proof.
  intros [Hpos Hle].
  assert (Hne : audio <> []) by (intros ->; simpl in Hpos; lia).
  rewrite (analysis_chunks_cons audio Hne), first_chunk.
  destruct (Z.leb_spec (Z.of_nat (List.length audio)) BUFFER_SIZE); [| lia].
  destruct (Z.ltb_spec (Z.of_nat (List.length audio)) BUFFER_SIZE) as [Hlt | Hge];
    [reflexivity |].
  replace (BUFFER_SIZE - Z.of_nat (List.length audio)) with 0 by lia.
  rewrite firstn_all2 by lia. cbn [Z.to_nat repeat]. now rewrite app_nil_r.
Qed.

(** A longer recording gives its first buffer, then the chunks of the
    rest. *)
Lemma analysis_chunks_long (audio : list Q) :
  BUFFER_SIZE < Z.of_nat (List.length audio) ->
  analysis_chunks audio
  = firstn (Z.to_nat BUFFER_SIZE) audio
    :: analysis_chunks (skipn (Z.to_nat BUFFER_SIZE) audio).
Proof.
  intros Hgt.
  assert (Hne : audio <> []) by (intros ->; simpl in Hgt; unfold BUFFER_SIZE in Hgt; lia).
  rewrite (analysis_chunks_cons audio Hne), first_chunk.
  destruct (Z.leb_spec (Z.of_nat (List.length audio)) BUFFER_SIZE); [lia |].
  destruct (Z.ltb_spec (Z.of_nat (List.length audio)) BUFFER_SIZE); [lia | reflexivity].
Qed.

(** What one full buffer adds to the chunks of the rest. *)
Lemma analysis_chunks_long_lengths (audio : list Q) :
  BUFFER_SIZE < Z.of_nat (List.length audio) ->
  (forall chunk, In chunk (analysis_chunks (skipn (Z.to_nat BUFFER_SIZE) audio)) ->
     Z.of_nat (List.length chunk) = BUFFER_SIZE) ->
  forall chunk, In chunk (analysis_chunks audio) ->
    Z.of_nat (List.length chunk) = BUFFER_SIZE.
Proof.
  intros Hgt Hall chunk Hin. assert (HB : BUFFER_SIZE = 1024) by reflexivity.
  rewrite analysis_chunks_long in Hin by assumption.
  apply in_inv in Hin. destruct Hin as [Hc | Hin]; [| exact (Hall chunk Hin)].
  rewrite <- Hc, length_firstn. lia.
Qed.

Lemma analysis_chunks_long_count (audio : list Q) :
  BUFFER_SIZE < Z.of_nat (List.length audio) ->
  Z.of_nat (List.length (analysis_chunks (skipn (Z.to_nat BUFFER_SIZE) audio)))
  = (Z.of_nat (List.length (skipn (Z.to_nat BUFFER_SIZE) audio)) + BUFFER_SIZE - 1)
    / BUFFER_SIZE ->
  Z.of_nat (List.length (analysis_chunks audio))
  = (Z.of_nat (List.length audio) + BUFFER_SIZE - 1) / BUFFER_SIZE.
Proof.
  intros Hgt Hcount. assert (HB : BUFFER_SIZE = 1024) by reflexivity.
  rewrite analysis_chunks_long by assumption.
  rewrite length_cons, Nat2Z.inj_succ, Hcount, length_skipn.
  replace (Z.of_nat (List.length audio - Z.to_nat BUFFER_SIZE))
    with (Z.of_nat (List.length audio) - BUFFER_SIZE) by lia.
  replace (Z.of_nat (List.length audio) + BUFFER_SIZE - 1)
    with ((Z.of_nat (List.length audio) - BUFFER_SIZE + BUFFER_SIZE - 1)
          + 1 * BUFFER_SIZE) by lia.
  rewrite Z.div_add by lia. lia.
Qed.

Lemma analysis_chunks_long_concat (audio : list Q) :
  BUFFER_SIZE < Z.of_nat (List.length audio) ->
  List.concat (analysis_chunks (skipn (Z.to_nat BUFFER_SIZE) audio))
  = skipn (Z.to_nat BUFFER_SIZE) audio
    ++ repeat 0%Q (Z.to_nat ((- Z.of_nat (List.length
                                            (skipn (Z.to_nat BUFFER_SIZE) audio)))
                             mod BUFFER_SIZE)) ->
  List.concat (analysis_chunks audio)
  = audio ++ repeat 0%Q (Z.to_nat ((- Z.of_nat (List.length audio)) mod BUFFER_SIZE)).
Proof.
  intros Hgt Hcat. assert (HB : BUFFER_SIZE = 1024) by reflexivity.
  rewrite analysis_chunks_long by assumption.
  rewrite concat_cons, Hcat, app_assoc, firstn_skipn, length_skipn.
  do 3 f_equal.
  replace (Z.of_nat (List.length audio - Z.to_nat BUFFER_SIZE))
    with (Z.of_nat (List.length audio) - BUFFER_SIZE) by lia.
  replace (- Z.of_nat (List.length audio))
    with (- (Z.of_nat (List.length audio) - BUFFER_SIZE) + (-1) * BUFFER_SIZE)
    by lia.
  now rewrite Z_mod_plus_full.
Qed.

Lemma analysis_chunks_short_spec (audio : list Q) :
  Z.of_nat (List.length audio) <= BUFFER_SIZE ->
  (forall chunk, In chunk (analysis_chunks audio) ->
     Z.of_nat (List.length chunk) = BUFFER_SIZE)
  /\ Z.of_nat (List.length (analysis_chunks audio))
     = (Z.of_nat (List.length audio) + BUFFER_SIZE - 1) / BUFFER_SIZE
  /\ List.concat (analysis_chunks audio)
     = audio ++ repeat 0%Q (Z.to_nat ((- Z.of_nat (List.length audio)) mod BUFFER_SIZE)).
Proof.
  intros Hle. assert (HB : BUFFER_SIZE = 1024) by reflexivity.
  destruct audio as [| x0 audio0]; [split; [intros chunk [] | split; reflexivity] |].
  remember (x0 :: audio0) as audio eqn:Haudio.
  assert (Hpos : 0 < Z.of_nat (List.length audio)) by (subst audio; simpl; lia).
  clear Haudio x0 audio0.
  rewrite analysis_chunks_short by lia. split; [| split].
  - intros chunk Hin. apply in_inv in Hin. destruct Hin as [Hc | []].
    rewrite <- Hc, length_app, repeat_length. lia.
  - rewrite length_cons. change (Z.of_nat (S (List.length (@nil (list Q))))) with 1.
    apply (Z.div_unique_pos _ _ 1 (Z.of_nat (List.length audio) - 1)); lia.
  - rewrite concat_cons. change (List.concat (@nil (list Q))) with (@nil Q).
    rewrite app_nil_r. do 3 f_equal.
    apply (Z.mod_unique_pos _ _ (-1)); lia.
Qed.

(** The loop's invariant, by induction on the number of samples left. *)
Lemma analysis_chunks_spec (n : nat) (audio : list Q) :
  (List.length audio <= n)%nat ->
  (forall chunk, In chunk (analysis_chunks audio) ->
     Z.of_nat (List.length chunk) = BUFFER_SIZE)
  /\ Z.of_nat (List.length (analysis_chunks audio))
     = (Z.of_nat (List.length audio) + BUFFER_SIZE - 1) / BUFFER_SIZE
  /\ List.concat (analysis_chunks audio)
     = audio ++ repeat 0%Q (Z.to_nat ((- Z.of_nat (List.length audio)) mod BUFFER_SIZE)).
Proof.
  revert audio. induction n as [| n IH]; intros audio Hn.
  - apply analysis_chunks_short_spec. unfold BUFFER_SIZE. lia.
  - destruct (Z_le_gt_dec (Z.of_nat (List.length audio)) BUFFER_SIZE) as [Hle | Hgt].
    + now apply analysis_chunks_short_spec.
    + assert (Hlt : BUFFER_SIZE < Z.of_nat (List.length audio)) by lia.
      assert (Hlen : (List.length (skipn (Z.to_nat BUFFER_SIZE) audio) <= n)%nat)
        by (rewrite length_skipn; unfold BUFFER_SIZE in *; lia).
      destruct (IH _ Hlen) as (Hall & Hcount & Hcat).
      split; [| split].
      * now apply analysis_chunks_long_lengths.
      * now apply analysis_chunks_long_count.
      * now apply analysis_chunks_long_concat.
Qed.

(** X27.  The analysis loop of [test_pitch.py] loses and invents
    nothing: every chunk it hands to the tracker has exactly
    [BUFFER_SIZE] samples, there are [ceil(len / BUFFER_SIZE)] chunks,
    and laid end to end they are the recording followed by fewer than
    [BUFFER_SIZE] zeros.  For the two-second recording of the script
    (88200 samples) that is 87 chunks, the last one padded with 888
    zeros. *)
Theorem analysis_chunks_cover (audio : list Q) :
  (forall chunk, In chunk (analysis_chunks audio) ->
     Z.of_nat (List.length chunk) = BUFFER_SIZE)
  /\ Z.of_nat (List.length (analysis_chunks audio))
     = (Z.of_nat (List.length audio) + BUFFER_SIZE - 1) / BUFFER_SIZE
  /\ List.concat (analysis_chunks audio)
     = audio ++ repeat 0%Q (Z.to_nat ((- Z.of_nat (List.length audio)) mod BUFFER_SIZE))
  /\ 0 <= (- Z.of_nat (List.length audio)) mod BUFFER_SIZE < BUFFER_SIZE
  /\ (88200 + BUFFER_SIZE - 1) / BUFFER_SIZE = 87
  /\ (- 88200) mod BUFFER_SIZE = 888.
Proof.
  destruct (analysis_chunks_spec (List.length audio) audio (le_n _))
    as (Hall & Hcount & Hcat).
  split; [assumption | split; [assumption | split; [assumption |]]].
  split; [apply Z.mod_pos_bound; reflexivity | split; reflexivity].
Qed.

(** ** The two draws of the target *)

(** [random.choice] only sees the draw modulo the length. *)
Lemma choice_mod {A : Type} (r : nat) (l : list A) :
  choice r l = choice (r mod List.length l) l.
Proof. unfold choice. now rewrite Nat.Div0.mod_mod. Qed.

(** Each string has thirteen candidates. *)
Lemma candidates_length (s : Z) :
  In s (keys STRING_TUNING_MIDI) ->
  List.length (filter (fun entry => fp_string entry =? s) FRETBOARD) = 13%nat.
Proof.
  intros Hs. simpl in Hs.
  destruct Hs as [<- | [<- | [<- | [<- | [<- | [<- | []]]]]]];
    vm_compute; reflexivity.
Qed.

Lemma random_target_mod (r1 r2 : nat) :
  random_target_string_and_note r1 r2
  = random_target_string_and_note (r1 mod 6) (r2 mod 13).
Proof.
  unfold random_target_string_and_note.
  rewrite (choice_mod r1 (keys STRING_TUNING_MIDI)).
  change (List.length (keys STRING_TUNING_MIDI)) with 6%nat.
  destruct (choice_returns (r1 mod 6) (keys STRING_TUNING_MIDI)) as (s & Hc & Hs);
    [discriminate |].
  rewrite Hc. unfold bind at 1 3.
  rewrite (choice_mod r2 (filter (fun entry => fp_string entry =? s) FRETBOARD)).
  now rewrite (candidates_length s Hs).
Qed.

(** X28.  What the two draws do: the first picks the string, the
    second the fret.  With draws [r1] and [r2],
    [random_target_string_and_note] returns the position at fret
    [r2 mod 13] of the string at place [r1 mod 6] of the tuning table
    (places counted in the table's order 6, 5, 4, 3, 2, 1): each string
    has the same number of candidates, so uniform draws give every
    position of the fretboard the same chance. *)
Theorem random_target_draws (r1 r2 : nat) :
  exists s open_midi,
    nth_error STRING_TUNING_MIDI (r1 mod 6) = Some (s, open_midi)
    /\ random_target_string_and_note r1 r2
       = Ret (target_of (s, Z.of_nat (r2 mod 13),
                         open_midi + Z.of_nat (r2 mod 13),
                         midi_to_note_name (open_midi + Z.of_nat (r2 mod 13)))).
Proof.
  assert (H1 : (r1 mod 6 < 6)%nat) by (apply Nat.mod_upper_bound; lia).
  assert (H2 : (r2 mod 13 < 13)%nat) by (apply Nat.mod_upper_bound; lia).
  destruct (nth_error STRING_TUNING_MIDI (r1 mod 6)) as [[s o] |] eqn:Hk.
  - exists s, o. split; [reflexivity |].
    pose proof (build_fretboard_nth_error MAX_FRET STRING_TUNING_MIDI (r1 mod 6)
                  s o (Z.of_nat (r2 mod 13)) Hk) as Hnth.
    fold FRETBOARD in Hnth. rewrite Nat2Z.id in Hnth.
    change (Z.to_nat (MAX_FRET + 1)) with 13%nat in Hnth.
    specialize (Hnth ltac:(unfold MAX_FRET; lia)).
    apply random_target_at_index in Hnth.
    assert (Hq : ((r1 mod 6 * 13 + r2 mod 13) / 13 = r1 mod 6)%nat).
    { rewrite Nat.div_add_l by lia. rewrite (Nat.div_small _ _ H2). lia. }
    assert (Hr : ((r1 mod 6 * 13 + r2 mod 13) mod 13 = r2 mod 13)%nat).
    { rewrite Nat.add_comm, Nat.Div0.mod_add. now apply Nat.mod_small. }
    rewrite Hq, Hr in Hnth.
    now rewrite random_target_mod.
  - apply nth_error_None in Hk.
    change (List.length STRING_TUNING_MIDI) with 6%nat in Hk. lia.
Qed.
